(** * concpool: a bounded-concurrency worker pool (src/concpool/pool.go)

    The pool is embedded as a labelled transition system.

    - The fields of [Pool] are the fields of the Go struct.  The three
      channels are buffers with a capacity; a send needs room in the
      buffer, a receive needs a value in it.
    - Every critical section of the source (the code between
      [p.mu.Lock()] and [p.mu.Unlock()]) and every channel operation is
      one atomic action.  A run of the program is an interleaving of
      such actions, chosen by a schedule; the [select] of [Wait] may
      take any of its cases that is ready.
    - A task is called once by its worker and returns; what it returns
      is all the pool looks at.  Calls of [Run], from whatever
      goroutine, are the actions [ARun] (line 128) and the later
      [attemptCheck] of the caller (line 129).
    - Go's [int] is taken to be 64 bits wide (amd64, arm64); its
      arithmetic wraps.  The one allocation whose size depends on an
      argument, the queue made by [New], can fail; nothing else runs
      out of memory. *)

From Stdlib Require Import ZArith Lia String.
From stdpp Require Import base relations list.

Local Open Scope Z_scope.

(** ** Machine integers *)

Definition int_min : Z := - 2 ^ 63.
Definition int_max : Z := 2 ^ 63 - 1.

(** Two's-complement wrap-around of Go's [int]. *)
Definition wrap (z : Z) : Z := (z + 2 ^ 63) mod 2 ^ 64 - 2 ^ 63.

(** ** Tasks and results *)

(** Go's [error]: [None] is [nil], [Some msg] a non-nil error value. *)
Definition error : Type := option string.

(** [type TaskResult struct { Success bool; Err error }] *)
Record TaskResult : Type := mkTaskResult { Success : bool; Err : error }.

(** A task is a closure [func() error].  The pool only ever calls it and
    looks at the error it returns, so a task is its returned error
    together with an identity that tells two closures apart in the
    history logs. *)
Record Task : Type := mkTask { task_id : nat; task_ret : error }.

(** The body of the worker goroutine, lines 106-111: the error returned
    by [t()] is mapped to a [TaskResult]. *)
Definition task_result (err : error) : TaskResult :=
  match err with
  | Some e => {| Success := false; Err := Some e |}
  | None => {| Success := true; Err := None |}
  end.

(** ** Channels *)

(** A buffered channel: its capacity and the values in flight, oldest
    first.  [sent] is a history counter (the number of sends that ever
    succeeded); the program cannot read it. *)
Record chan (A : Type) : Type := mkChan { cap : nat; buf : list A; sent : nat }.
Arguments mkChan {A} _ _ _.
Arguments cap {A} _.
Arguments buf {A} _.
Arguments sent {A} _.

(** [make(chan A, n)] *)
Definition make_chan {A : Type} (n : nat) : chan A :=
  {| cap := n; buf := []; sent := 0 |}.

(** A send can proceed when the buffer has room. *)
Definition can_send {A : Type} (c : chan A) : bool :=
  (length (buf c) <? cap c)%nat.

Definition do_send {A : Type} (c : chan A) (v : A) : chan A :=
  {| cap := cap c; buf := buf c ++ [v]; sent := S (sent c) |}.

(** [c <- v]: blocks (no step, [None]) while the buffer is full. *)
Definition chan_send {A : Type} (c : chan A) (v : A) : option (chan A) :=
  if can_send c then Some (do_send c v) else None.

(** [select { case c <- v: default: }]: the value is dropped when the
    buffer is full. *)
Definition chan_try_send {A : Type} (c : chan A) (v : A) : chan A :=
  if can_send c then do_send c v else c.

(** [<-c]: blocks (no step, [None]) while the buffer is empty. *)
Definition chan_recv {A : Type} (c : chan A) : option (A * chan A) :=
  match buf c with
  | [] => None
  | v :: rest => Some (v, {| cap := cap c; buf := rest; sent := sent c |})
  end.

(** The values of Go's [int]. *)
Definition is_int (z : Z) : Prop := int_min <= z <= int_max.

(** ** The pool *)

(** [type Pool struct].  The mutex [mu] has no field here: it is what
    makes each critical section below one atomic action. *)
Record Pool : Type := mkPool {
  maxCount : Z;
  queue : list Task;
  running : Z;
  results : chan TaskResult;
  terminated : bool;
  terminationChannel : chan bool;
  runCheckChannel : chan bool
}.

Definition set_queue (q : list Task) (p : Pool) : Pool :=
  {| maxCount := maxCount p; queue := q; running := running p;
     results := results p; terminated := terminated p;
     terminationChannel := terminationChannel p;
     runCheckChannel := runCheckChannel p |}.

Definition set_running (r : Z) (p : Pool) : Pool :=
  {| maxCount := maxCount p; queue := queue p; running := r;
     results := results p; terminated := terminated p;
     terminationChannel := terminationChannel p;
     runCheckChannel := runCheckChannel p |}.

Definition set_results (c : chan TaskResult) (p : Pool) : Pool :=
  {| maxCount := maxCount p; queue := queue p; running := running p;
     results := c; terminated := terminated p;
     terminationChannel := terminationChannel p;
     runCheckChannel := runCheckChannel p |}.

Definition set_terminated (b : bool) (p : Pool) : Pool :=
  {| maxCount := maxCount p; queue := queue p; running := running p;
     results := results p; terminated := b;
     terminationChannel := terminationChannel p;
     runCheckChannel := runCheckChannel p |}.

Definition set_terminationChannel (c : chan bool) (p : Pool) : Pool :=
  {| maxCount := maxCount p; queue := queue p; running := running p;
     results := results p; terminated := terminated p;
     terminationChannel := c;
     runCheckChannel := runCheckChannel p |}.

Definition set_runCheckChannel (c : chan bool) (p : Pool) : Pool :=
  {| maxCount := maxCount p; queue := queue p; running := running p;
     results := results p; terminated := terminated p;
     terminationChannel := terminationChannel p;
     runCheckChannel := c |}.

(** The size in bytes of a [func() error] value on a 64-bit platform,
    and the largest size [makeslice] accepts there (the [maxAlloc] of
    the runtime). *)
Definition func_size : Z := 8.
Definition max_alloc : Z := 2 ^ 48.

(** [make([]func() error, 0, c)] where the allocator can grant at most
    [avail] bytes.  There is no slice ([None]) when [makeslice] panics
    with "cap out of range", that is when the capacity is negative or
    its size in bytes exceeds [maxAlloc], and none when the runtime
    cannot get the memory and stops.  Otherwise the slice is empty; a
    list has no capacity. *)
Definition make_queue (avail c : Z) : option (list Task) :=
  if (c <? 0) || (max_alloc <? c * func_size) || (avail <? c * func_size)
  then None
  else Some [].

(** [func New(maxCount int) *Pool] where the allocator can grant at
    most [avail] bytes.  The queue is made with capacity [maxCount*2],
    a product that wraps. *)
Definition New_in (avail maxCount : Z) : option Pool :=
  let maxCount := if maxCount <=? 0 then 1 else maxCount in
  match make_queue avail (wrap (maxCount * 2)) with
  | None => None
  | Some q =>
      Some {| maxCount := maxCount;
              queue := q;
              running := 0;
              results := make_chan 1;
              terminated := false;
              terminationChannel := make_chan 1;
              runCheckChannel := make_chan 1 |}
  end.

(** [New] where memory is not short: the allocator grants whatever
    [makeslice] accepts.  Every pool that [New_in] returns is returned
    by [New], so what is proved of the pools of [New] holds of the
    pools made with any amount of memory. *)
Definition New (maxCount : Z) : option Pool := New_in max_alloc maxCount.

(** [func (p *Pool) pushToQueue(task func() error)] *)
Definition pushToQueue (task : Task) (p : Pool) : Pool :=
  set_queue (queue p ++ [task]) p.

(** [func (p *Pool) attemptTermination()] *)
Definition attemptTermination (p : Pool) : Pool :=
  if terminated p then p
  else
    let p := set_terminated true p in
    set_terminationChannel (chan_try_send (terminationChannel p) true) p.

(** [func (p *Pool) attemptCheck()] *)
Definition attemptCheck (p : Pool) : Pool :=
  set_runCheckChannel (chan_try_send (runCheckChannel p) true) p.

(** The [for i := 0; i < available; i++] loop of [checkQueue], lines
    88-120, with [iters] iterations left.  It yields the pool, the tasks
    handed to a new goroutine (in launch order) and whether the loop left
    through line 91-93, where [attemptTermination] is called once the
    lock is released. *)
Fixpoint checkQueue_loop (iters : nat) (p : Pool) : Pool * list Task * bool :=
  match iters with
  | O => (p, [], false)
  | S iters' =>
      match queue p with
      | [] => if running p =? 0 then (p, [], true) else (p, [], false)
      | task :: rest =>
          let p := set_queue rest p in
          let p := set_running (wrap (running p + 1)) p in
          let '(p', launched, term) := checkQueue_loop iters' p in
          (p', task :: launched, term)
      end
  end.

(** The part of [checkQueue] that runs with the lock held. *)
Definition checkQueue_locked (p : Pool) : Pool * list Task * bool :=
  if terminated p then (p, [], false)
  else
    let available := wrap (maxCount p - running p) in
    if available <=? 0 then (p, [], false)
    else checkQueue_loop (Z.to_nat available) p.

(** [func (p *Pool) checkQueue()] when nothing else runs in between: the
    locked part, then [attemptTermination] if line 92 is reached.  The
    second component lists the tasks for which a goroutine is started. *)
Definition checkQueue (p : Pool) : Pool * list Task :=
  let '(p', launched, term) := checkQueue_locked p in
  (if term then attemptTermination p' else p', launched).

(** The fields of a pool as the data model has them: a positive limit
    and a running count that is not negative, both values of [int]. *)
Definition pool_fields_ok (p : Pool) : Prop :=
  1 <= maxCount p <= int_max /\ 0 <= running p <= int_max.

(** [func (p *Pool) Run(task func() error)] when nothing else runs in
    between its two calls. *)
Definition Run (task : Task) (p : Pool) : Pool :=
  attemptCheck (pushToQueue task p).

(** ** Goroutines *)

(** Where a goroutine stands.  The first five are the states of the
    worker started at line 105; [GAttemptCheck] is also where a caller
    of [Run] stands between its two calls (lines 128 and 129). *)
Inductive Goroutine : Type :=
| GSpawned (t : Task)        (* created by [go func(t)], [t()] not yet called *)
| GInTask (t : Task)         (* inside [err := t()], line 106 *)
| GSend (r : TaskResult)     (* at [p.results <- r], line 108 or 110 *)
| GDecrement                 (* at lines 113-115, [p.running--] *)
| GAttemptCheck              (* at [p.attemptCheck()], line 118 or line 129 *)
| GDone.

(** The goroutine that calls [Wait]. *)
Inductive Waiter : Type :=
| WNotCalled                          (* [Wait] has not been called *)
| WSelect (rs : list TaskResult)      (* blocked in the [select], line 141 *)
| WTerminate (rs : list TaskResult)   (* in [checkQueue] between lines 91 and 92 *)
| WReturned (rs : list TaskResult).   (* [Wait] has returned [rs], line 147 *)

(** The whole program: the pool, the goroutines, the tasks callers have
    yet to pass to [Run] (in the order they will be pushed), the
    goroutine in [Wait], and three history logs: tasks in the order they
    were pushed, handed to a goroutine, and entered. *)
Record System : Type := mkSystem {
  pool : Pool;
  gos : list Goroutine;
  inbox : list Task;
  waiter : Waiter;
  submitted : list Task;
  launched : list Task;
  started : list Task
}.

(** The program right after [p := New(n)], with [tasks] to be submitted. *)
Definition init (p : Pool) (tasks : list Task) : System :=
  {| pool := p; gos := []; inbox := tasks; waiter := WNotCalled;
     submitted := []; launched := []; started := [] |}.

Definition set_pool (p : Pool) (s : System) : System :=
  {| pool := p; gos := gos s; inbox := inbox s; waiter := waiter s;
     submitted := submitted s; launched := launched s; started := started s |}.

Definition set_gos (g : list Goroutine) (s : System) : System :=
  {| pool := pool s; gos := g; inbox := inbox s; waiter := waiter s;
     submitted := submitted s; launched := launched s; started := started s |}.

Definition set_waiter (w : Waiter) (s : System) : System :=
  {| pool := pool s; gos := gos s; inbox := inbox s; waiter := w;
     submitted := submitted s; launched := launched s; started := started s |}.

(** One atomic action of one goroutine. *)
Inductive Action : Type :=
| ARun                 (* a caller of [Run] pushes the next task, line 128 *)
| AGo (i : nat)        (* goroutine [i] does its next action *)
| AWait                (* [Wait] is called: the locked part of line 136 *)
| ARecvCheck           (* the [select] takes [<-p.runCheckChannel] *)
| ARecvResult          (* the [select] takes [r := <-p.results] *)
| ARecvTermination     (* the [select] takes [<-p.terminationChannel] *)
| ATerminate.          (* [attemptTermination] of line 92 *)

(** The next action of the goroutine in slot [i]. *)
Definition go_step (i : nat) (s : System) : option System :=
  match gos s !! i with
  | Some (GSpawned t) =>
      Some {| pool := pool s; gos := <[i := GInTask t]> (gos s);
              inbox := inbox s; waiter := waiter s;
              submitted := submitted s; launched := launched s;
              started := started s ++ [t] |}
  | Some (GInTask t) =>
      Some (set_gos (<[i := GSend (task_result (task_ret t))]> (gos s)) s)
  | Some (GSend r) =>
      match chan_send (results (pool s)) r with
      | Some c =>
          Some (set_gos (<[i := GDecrement]> (gos s))
                  (set_pool (set_results c (pool s)) s))
      | None => None
      end
  | Some GDecrement =>
      Some (set_gos (<[i := GAttemptCheck]> (gos s))
              (set_pool (set_running (wrap (running (pool s) - 1)) (pool s)) s))
  | Some GAttemptCheck =>
      Some (set_gos (<[i := GDone]> (gos s))
              (set_pool (attemptCheck (pool s)) s))
  | Some GDone => None
  | None => None
  end.

(** The goroutine in [Wait] runs the locked part of [checkQueue] on
    pool [p], having collected [rs]: the launched tasks get a goroutine
    each, and the waiter goes on to [attemptTermination] or back to the
    [select]. *)
Definition wait_check (p : Pool) (rs : list TaskResult) (s : System) : System :=
  let '(p', ts, term) := checkQueue_locked p in
  {| pool := p'; gos := gos s ++ map GSpawned ts;
     inbox := inbox s;
     waiter := if term then WTerminate rs else WSelect rs;
     submitted := submitted s; launched := launched s ++ ts;
     started := started s |}.

Definition do_action (a : Action) (s : System) : option System :=
  match a with
  | ARun =>
      match inbox s with
      | [] => None
      | t :: rest =>
          Some {| pool := pushToQueue t (pool s);
                  gos := gos s ++ [GAttemptCheck];
                  inbox := rest; waiter := waiter s;
                  submitted := submitted s ++ [t];
                  launched := launched s; started := started s |}
      end
  | AGo i => go_step i s
  | AWait =>
      match waiter s with
      | WNotCalled => Some (wait_check (pool s) [] s)
      | _ => None
      end
  | ARecvCheck =>
      match waiter s, chan_recv (runCheckChannel (pool s)) with
      | WSelect rs, Some (_, c) =>
          Some (wait_check (set_runCheckChannel c (pool s)) rs s)
      | _, _ => None
      end
  | ARecvResult =>
      match waiter s, chan_recv (results (pool s)) with
      | WSelect rs, Some (r, c) =>
          Some (set_waiter (WSelect (rs ++ [r]))
                  (set_pool (set_results c (pool s)) s))
      | _, _ => None
      end
  | ARecvTermination =>
      match waiter s, chan_recv (terminationChannel (pool s)) with
      | WSelect rs, Some (_, c) =>
          Some (set_waiter (WReturned rs)
                  (set_pool (set_terminationChannel c (pool s)) s))
      | _, _ => None
      end
  | ATerminate =>
      match waiter s with
      | WTerminate rs =>
          Some (set_waiter (WSelect rs)
                  (set_pool (attemptTermination (pool s)) s))
      | _ => None
      end
  end.

(** Running a schedule: [None] when some action of it cannot be taken. *)
Fixpoint exec (acts : list Action) (s : System) : option System :=
  match acts with
  | [] => Some s
  | a :: acts' =>
      match do_action a s with
      | Some s' => exec acts' s'
      | None => None
      end
  end.

Definition step (s s' : System) : Prop := exists a, do_action a s = Some s'.

Definition reachable (s0 s : System) : Prop := rtc step s0 s.

(** On every path from [s], [Wait] returns: either it has returned, or
    some action can be taken and every action leads to such a state. *)
Inductive eventually_returns (s : System) : Prop :=
| er_returned rs : waiter s = WReturned rs -> eventually_returns s
| er_step :
    (exists s', step s s') ->
    (forall s', step s s' -> eventually_returns s') ->
    eventually_returns s.

(** ** Counting goroutines *)

(** The sum of [f] over the goroutines. *)
Definition tally (f : Goroutine -> nat) (gs : list Goroutine) : nat :=
  sum_list_with f gs.

(** A goroutine that [p.running] still counts: started at line 105 and
    not yet past line 114. *)
Definition busy (g : Goroutine) : nat :=
  match g with
  | GSpawned _ | GInTask _ | GSend _ | GDecrement => 1
  | GAttemptCheck | GDone => 0
  end.

(** A goroutine inside the body of its task. *)
Definition in_task (g : Goroutine) : nat :=
  match g with
  | GInTask _ => 1
  | _ => 0
  end.

(** The tasks of the goroutines that have not entered their task yet. *)
Definition spawned (gs : list Goroutine) : list Task :=
  flat_map (fun g => match g with GSpawned t => [t] | _ => [] end) gs.

(** The results [Wait] has collected so far. *)
Definition collected (w : Waiter) : list TaskResult :=
  match w with
  | WNotCalled => []
  | WSelect rs | WTerminate rs | WReturned rs => rs
  end.

(** ** A measure that every action decreases *)

Definition weight (g : Goroutine) : nat :=
  match g with
  | GSpawned _ => 8
  | GInTask _ => 7
  | GSend _ => 6
  | GDecrement => 4
  | GAttemptCheck => 3
  | GDone => 0
  end.

Definition waiter_weight (w : Waiter) : nat :=
  match w with
  | WNotCalled => 3
  | WTerminate _ => 2
  | WSelect _ => 1
  | WReturned _ => 0
  end.

Definition pool_weight (p : Pool) : nat :=
  (8 * length (queue p) + 2 * length (buf (runCheckChannel p))
   + length (buf (results p)) + length (buf (terminationChannel p))
   + (if terminated p then 0 else 2))%nat.

Definition measure (s : System) : nat :=
  (12 * length (inbox s) + pool_weight (pool s) + tally weight (gos s)
   + waiter_weight (waiter s))%nat.

(** ** Invariants *)

(** What holds of the pool and the goroutines in every reachable state. *)
Record Inv (s : System) : Prop := mkInv {
  inv_limit : 1 <= maxCount (pool s) <= int_max;
  inv_running : running (pool s) = Z.of_nat (tally busy (gos s));
  inv_bound : running (pool s) <= maxCount (pool s);
  inv_cap_results : cap (results (pool s)) = 1%nat;
  inv_cap_term : cap (terminationChannel (pool s)) = 1%nat;
  inv_cap_check : cap (runCheckChannel (pool s)) = 1%nat;
  inv_not_terminated :
    terminated (pool s) = false ->
    buf (terminationChannel (pool s)) = []
    /\ sent (terminationChannel (pool s)) = 0%nat
    /\ forall rs, waiter s <> WReturned rs;
  inv_terminated :
    terminated (pool s) = true ->
    running (pool s) = 0
    /\ sent (terminationChannel (pool s)) = 1%nat
    /\ (forall rs, waiter s = WSelect rs ->
        buf (terminationChannel (pool s)) <> [])
    /\ waiter s <> WNotCalled
    /\ forall rs, waiter s <> WTerminate rs;
  inv_terminating :
    forall rs, waiter s = WTerminate rs -> running (pool s) = 0;
  inv_wakeup :
    forall rs, waiter s = WSelect rs -> terminated (pool s) = false ->
    (exists i g, gos s !! i = Some g /\ g <> GDone)
    \/ buf (runCheckChannel (pool s)) <> []
}.

(** Admission order: what was pushed is what was launched followed by
    what is still queued; the launched tasks are those entered followed
    by those whose goroutine has not entered them yet. *)
Record InvFifo (s : System) : Prop := mkInvFifo {
  fifo_queue : submitted s = launched s ++ queue (pool s);
  fifo_start :
    maxCount (pool s) = 1 -> launched s = started s ++ spawned (gos s)
}.

(** A worker that has not sent its result yet. *)
Definition unsent (g : Goroutine) : nat :=
  match g with
  | GSpawned _ | GInTask _ | GSend _ => 1
  | GDecrement | GAttemptCheck | GDone => 0
  end.

(** Where the results are: one per launched task, collected by [Wait],
    in the buffer of [p.results] (at most one), or still to be sent. *)
Record InvCount (s : System) : Prop := mkInvCount {
  count_results :
    length (launched s)
    = (length (collected (waiter s)) + length (buf (results (pool s)))
       + tally unsent (gos s))%nat;
  count_buffer : (length (buf (results (pool s))) <= 1)%nat
}.

(** When nothing is left to submit by the time termination is decided,
    the queue is empty from then on. *)
Record InvDrain (s : System) : Prop := mkInvDrain {
  drain_inbox : inbox s = [];
  drain_queue :
    (exists rs, waiter s = WTerminate rs) \/ terminated (pool s) = true ->
    queue (pool s) = []
}.

(** The number of pushes in a schedule. *)
Fixpoint pushes (acts : list Action) : nat :=
  match acts with
  | [] => 0
  | ARun :: acts' => S (pushes acts')
  | _ :: acts' => pushes acts'
  end.

(** The reading of "the flag is set only in a state where pending is
    empty and running is zero" on the transition system. *)
Definition terminated_set_only_when_idle : Prop :=
  forall n p tasks s s',
    New n = Some p ->
    reachable (init p tasks) s ->
    step s s' ->
    terminated (pool s) = false ->
    terminated (pool s') = true ->
    queue (pool s) = [] /\ running (pool s) = 0.

(** The reading of "[Wait] returns exactly K results when K tasks were
    submitted before it was called": on every schedule that starts with
    the K complete calls of [Run] and then calls [Wait]. *)
Definition run_all (k : nat) : list Action :=
  flat_map (fun i => [ARun; AGo i]) (seq 0 k).

Definition wait_returns_all : Prop :=
  forall n p tasks acts s rs,
    New n = Some p ->
    exec (run_all (length tasks) ++ AWait :: acts) (init p tasks) = Some s ->
    waiter s = WReturned rs ->
    length rs = length tasks.

(** ** Small instances used to run the definitions *)

Definition task_ok (i : nat) : Task := {| task_id := i; task_ret := None |}.

Definition task_err (i : nat) (msg : string) : Task :=
  {| task_id := i; task_ret := Some msg |}.

(** A pool of limit [limit] that is idle, with [q] queued. *)
Definition idle_pool (limit : Z) (q : list Task) : Pool :=
  {| maxCount := limit; queue := q; running := 0;
     results := make_chan 1; terminated := false;
     terminationChannel := make_chan 1;
     runCheckChannel := make_chan 1 |}.

(** Three tasks, the second of which fails. *)
Definition demo_tasks : list Task :=
  [task_ok 1; task_err 2 "boom"; task_ok 3].

(** All three are submitted, [Wait] is called and launches two of them;
    the first worker enters its task. *)
Definition demo_schedule : list Action :=
  [ARun; AGo 0; ARun; AGo 1; ARun; AGo 2; AWait; AGo 3]%nat.

(** With limit one: all three are submitted, [Wait] launches the first,
    which runs to the point where it has decremented [running]; the
    next check launches the second, which enters its task. *)
Definition fifo_schedule : list Action :=
  [ARun; AGo 0; ARun; AGo 1; ARun; AGo 2; AWait;
   AGo 3; AGo 3; AGo 3; AGo 3; ARecvCheck; AGo 4]%nat.

(** One task, one slot.  The task is submitted and runs to completion
    while [Wait] is blocked in its [select]; the result sits in the
    buffer of [p.results] when the [select] takes the re-check signal
    and then the termination signal. *)
Definition lost_schedule : list Action :=
  run_all 1 ++
  [AWait; AGo 1; AGo 1; AGo 1; AGo 1; AGo 1;
   ARecvCheck; ATerminate; ARecvTermination]%nat.

(** [Wait] is called on an empty pool and [Run] pushes a task between
    lines 91 and 92 of [checkQueue]. *)
Definition late_run_schedule : list Action := [AWait; ARun].

(** ** Bookkeeping of tasks and results *)

(** The results the tasks [ts] produce, in the order of [ts]. *)
Definition results_of (ts : list Task) : list TaskResult :=
  map (fun t => task_result (task_ret t)) ts.

(** The results that workers hold and have not sent: the one a worker
    stands ready to send, and the one the body of a task that has been
    entered will return. *)
Definition pending_results (gs : list Goroutine) : list TaskResult :=
  flat_map (fun g => match g with
                     | GInTask t => [task_result (task_ret t)]
                     | GSend r => [r]
                     | _ => []
                     end) gs.

(** The results there are in a state: collected by [Wait], in the
    buffer of [p.results], and held by workers. *)
Definition held_results (s : System) : list TaskResult :=
  collected (waiter s) ++ buf (results (pool s)) ++ pending_results (gos s).

(** Every launched task is with a worker that has not entered it or in
    the log of entered tasks, and every entered task has its result in
    one place: collected, in the channel, or still with its worker. *)
Record InvBooks (s : System) : Prop := mkInvBooks {
  books_tasks : started s ++ spawned (gos s) ≡ₚ launched s;
  books_results :
    collected (waiter s) ++ buf (results (pool s)) ++ pending_results (gos s)
    ≡ₚ results_of (started s)
}.

(** A queued task that could be started is not forgotten: a re-check
    signal is in the channel or some goroutine is about to send one. *)
Record InvWork (s : System) : Prop := mkInvWork {
  work_pending :
    forall rs, waiter s = WSelect rs ->
    terminated (pool s) = false ->
    queue (pool s) <> [] ->
    running (pool s) < maxCount (pool s) ->
    buf (runCheckChannel (pool s)) <> []
    \/ exists i, gos s !! i = Some GAttemptCheck
}.

(** The result that action [a] puts into [p.results] in state [s]. *)
Definition sent_by (a : Action) (s : System) : list TaskResult :=
  match a with
  | AGo i =>
      match gos s !! i with
      | Some (GSend r) => if can_send (results (pool s)) then [r] else []
      | _ => []
      end
  | _ => []
  end.

(** The results put into [p.results] along a schedule, in the order
    they are sent. *)
Fixpoint deliveries (acts : list Action) (s : System) : list TaskResult :=
  match acts with
  | [] => []
  | a :: acts' =>
      match do_action a s with
      | Some s' => sent_by a s ++ deliveries acts' s'
      | None => []
      end
  end.

(** ** The example program (src/main.go) *)

(** The loop of lines 32-37: [failed] counts the results whose
    [Success] is false. *)
Definition count_failed (rs : list TaskResult) : Z :=
  fold_left (fun failed r => if negb (Success r) then wrap (failed + 1) else failed)
    rs 0.

(** The number of failed results, and of tasks that return an error. *)
Definition nfailed (rs : list TaskResult) : nat :=
  sum_list_with (fun r => if Success r then 0 else 1)%nat rs.

Definition failing (ts : list Task) : nat := nfailed (results_of ts).

(** The task bodies that have returned.  In [main] each body adds one
    to [counter] under a mutex and returns [nil], so this is the value
    of [counter]. *)
Definition bodies_returned (s : System) : nat :=
  (length (started s) - tally in_task (gos s))%nat.

(** The tasks of [main]: [k] closures that return [nil]. *)
Definition main_tasks (k : nat) : list Task := map task_ok (seq 0 k).

(** [func main()] with the pool size and the number of tasks as
    arguments: the pool is made, the [k] calls of [Run] are made one
    after the other, [Wait] is called, and the rest of the schedule is
    [acts].  The value is what the two [Printf] calls print: [counter]
    (a [uint64]), [len(results)] and [failed]; [None] when [acts] does
    not bring [Wait] to return. *)
Definition main_with (limit : Z) (k : nat) (acts : list Action)
  : option (Z * Z * Z) :=
  match New limit with
  | None => None
  | Some p =>
      match exec (run_all k ++ AWait :: acts) (init p (main_tasks k)) with
      | Some s =>
          match waiter s with
          | WReturned rs =>
              Some (Z.of_nat (bodies_returned s) mod 2 ^ 64,
                    Z.of_nat (length rs),
                    count_failed rs)
          | _ => None
          end
      | None => None
      end
  end.

(** [func main()]: ten workers, ten thousand tasks. *)
Definition main (acts : list Action) : option (Z * Z * Z) :=
  main_with 10 (Z.to_nat 10000) acts.

(** A complete run of one task on a pool of limit one in which [Wait]
    collects the result before it looks at the signals. *)
Definition full_schedule : list Action :=
  [AGo 1; AGo 1; AGo 1; ARecvResult; AGo 1; AGo 1;
   ARecvCheck; ATerminate; ARecvTermination]%nat.

(** After [demo_schedule], the second worker finishes first: its
    result is collected by [Wait], then the first worker sends its own. *)
Definition overtaking_schedule : list Action :=
  demo_schedule ++ [AGo 4; AGo 4; AGo 4; ARecvResult; AGo 3; AGo 3]%nat.

(** * Proofs *)

(** ** Arithmetic and channels *)

Lemma wrap_id (z : Z) : int_min <= z <= int_max -> wrap z = z.
Proof.
  unfold wrap, int_min, int_max. intros Hz.
  rewrite Z.mod_small; lia.
Qed.

Lemma can_send_empty {A : Type} (c : chan A) :
  cap c = 1%nat -> buf c = [] -> can_send c = true.
Proof.
  intros Hc Hb. unfold can_send. rewrite Hc, Hb. reflexivity.
Qed.

Lemma can_send_full {A : Type} (c : chan A) :
  cap c = 1%nat -> can_send c = false -> buf c <> [].
Proof.
  intros Hc Hs Hb. rewrite (can_send_empty c Hc Hb) in Hs. discriminate.
Qed.

Lemma try_send_nonempty {A : Type} (c : chan A) (v : A) :
  cap c = 1%nat -> buf (chan_try_send c v) <> [].
Proof.
  intros Hc. unfold chan_try_send. destruct (can_send c) eqn:Hs.
  - simpl. destruct (buf c); discriminate.
  - apply can_send_full; assumption.
Qed.

Lemma try_send_cap {A : Type} (c : chan A) (v : A) :
  cap (chan_try_send c v) = cap c.
Proof. unfold chan_try_send. destruct (can_send c); reflexivity. Qed.

Lemma try_send_length {A : Type} (c : chan A) (v : A) :
  (length (buf (chan_try_send c v)) <= S (length (buf c)))%nat.
Proof.
  unfold chan_try_send. destruct (can_send c); simpl.
  - rewrite length_app. simpl. lia.
  - lia.
Qed.

Lemma chan_send_Some {A : Type} (c c' : chan A) (v : A) :
  chan_send c v = Some c' ->
  cap c' = cap c /\ buf c' = buf c ++ [v] /\ sent c' = S (sent c).
Proof.
  unfold chan_send. destruct (can_send c); intros H; inversion H; subst.
  simpl. auto.
Qed.

Lemma chan_recv_Some {A : Type} (c c' : chan A) (v : A) :
  chan_recv c = Some (v, c') ->
  cap c' = cap c /\ buf c = v :: buf c' /\ sent c' = sent c.
Proof.
  unfold chan_recv. destruct (buf c) eqn:Hb; intros H; inversion H; subst.
  simpl. auto.
Qed.

(** ** The admission loop *)

(** What [checkQueue_loop] leaves alone, whatever the counters are: the
    launched tasks are a prefix of the queue, and only [queue] and
    [running] change. *)
Lemma checkQueue_loop_frame (k : nat) :
  forall p p' ts term,
    checkQueue_loop k p = (p', ts, term) ->
    queue p = ts ++ queue p'
    /\ (length ts <= k)%nat
    /\ maxCount p' = maxCount p
    /\ results p' = results p
    /\ terminated p' = terminated p
    /\ terminationChannel p' = terminationChannel p
    /\ runCheckChannel p' = runCheckChannel p.
Proof.
  induction k as [|k IH]; intros p p' ts term H; simpl in H.
  - inversion H; subst. simpl. repeat split; auto with lia.
  - destruct (queue p) as [|task rest] eqn:Hq.
    + destruct (running p =? 0); inversion H; subst;
        rewrite Hq; simpl; repeat split; auto with lia.
    + destruct (checkQueue_loop k _) as [[p1 ts1] term1] eqn:Hrec.
      inversion H; subst. apply IH in Hrec. simpl in Hrec.
      destruct Hrec as (Hq1 & Hlen & Hm & Hr & Ht & Htc & Hrc).
      simpl. rewrite Hq1. repeat split; auto with lia.
Qed.

(** The counters, when [running] is not negative and cannot overflow. *)
Lemma checkQueue_loop_count (k : nat) :
  forall p p' ts term,
    checkQueue_loop k p = (p', ts, term) ->
    0 <= running p ->
    running p + Z.of_nat k <= int_max ->
    running p' = running p + Z.of_nat (length ts)
    /\ length ts = Nat.min k (length (queue p))
    /\ (term = true -> p' = p /\ ts = [] /\ queue p = [] /\ running p = 0)
    /\ (term = false -> (0 < k)%nat -> 1 <= running p').
Proof.
  induction k as [|k IH]; intros p p' ts term H Hr Hmax; simpl in H.
  - inversion H; subst. simpl. repeat split; try lia; discriminate.
  - destruct (queue p) as [|task rest] eqn:Hq.
    + destruct (running p =? 0) eqn:Hz; inversion H; subst; simpl.
      * apply Z.eqb_eq in Hz. repeat split; auto; try lia; discriminate.
      * apply Z.eqb_neq in Hz. repeat split; try lia; discriminate.
    + destruct (checkQueue_loop k _) as [[p1 ts1] term1] eqn:Hrec.
      inversion H; subst. apply IH in Hrec; simpl.
      * simpl in Hrec. unfold int_min, int_max in *.
        rewrite wrap_id in Hrec by (unfold int_min, int_max; lia).
        destruct Hrec as (Hrun & Hlen & Hterm & Hpos).
        split; [lia|]. split; [lia|]. split.
        -- intros ->. destruct Hterm as (_ & _ & _ & H0); [reflexivity|].
           lia.
        -- intros _ _. lia.
      * simpl. rewrite wrap_id by (unfold int_min, int_max in *; lia). lia.
      * simpl. rewrite wrap_id by (unfold int_min, int_max in *; lia).
        unfold int_max in *. lia.
Qed.

Lemma checkQueue_locked_frame (p p' : Pool) (ts : list Task) (term : bool) :
  checkQueue_locked p = (p', ts, term) ->
  queue p = ts ++ queue p'
  /\ maxCount p' = maxCount p
  /\ results p' = results p
  /\ terminated p' = terminated p
  /\ terminationChannel p' = terminationChannel p
  /\ runCheckChannel p' = runCheckChannel p.
Proof.
  unfold checkQueue_locked. intros H.
  destruct (terminated p) eqn:Ht.
  { inversion H; subst; simpl. repeat split; auto. }
  destruct (wrap (maxCount p - running p) <=? 0).
  { inversion H; subst; simpl. repeat split; auto. }
  apply checkQueue_loop_frame in H.
  destruct H as (? & ? & ? & ? & ? & ? & ?). repeat split; congruence.
Qed.

Lemma checkQueue_locked_count (p p' : Pool) (ts : list Task) (term : bool) :
  checkQueue_locked p = (p', ts, term) ->
  pool_fields_ok p ->
  running p' = running p + Z.of_nat (length ts)
  /\ (running p <= maxCount p -> running p' <= maxCount p)
  /\ (term = true ->
      p' = p /\ ts = [] /\ queue p = [] /\ running p = 0
      /\ terminated p = false)
  /\ (term = false -> terminated p = false -> maxCount p <= running p \/ 1 <= running p').
Proof.
  unfold checkQueue_locked, pool_fields_ok. intros H [Hm Hr].
  assert (Hw : wrap (maxCount p - running p) = maxCount p - running p)
    by (apply wrap_id; unfold int_min, int_max in *; lia).
  rewrite Hw in H.
  destruct (terminated p) eqn:Ht.
  { inversion H; subst; simpl. repeat split; try lia; discriminate. }
  destruct (maxCount p - running p <=? 0) eqn:Ha.
  { apply Z.leb_le in Ha. inversion H; subst; simpl.
    repeat split; try lia; discriminate. }
  apply Z.leb_gt in Ha.
  pose proof (checkQueue_loop_frame _ _ _ _ _ H) as (_ & Hlen & _).
  apply checkQueue_loop_count in H; [|lia|lia].
  destruct H as (Hrun & _ & Hterm & Hpos).
  split; [exact Hrun|]. split; [lia|]. split.
  - intros E. destruct (Hterm E) as (? & ? & ? & ?). auto.
  - intros E _. right. apply Hpos; [exact E|lia].
Qed.

Lemma checkQueue_locked_prefix (p p' : Pool) (ts : list Task) (term : bool) :
  checkQueue_locked p = (p', ts, term) ->
  pool_fields_ok p ->
  terminated p = false ->
  0 < maxCount p - running p ->
  length ts = Nat.min (length (queue p)) (Z.to_nat (maxCount p - running p)).
Proof.
  unfold checkQueue_locked, pool_fields_ok. intros H [Hm Hr] Ht Ha.
  rewrite wrap_id in H by (unfold int_min, int_max in *; lia).
  rewrite Ht in H.
  destruct (maxCount p - running p <=? 0) eqn:Hle;
    [apply Z.leb_le in Hle; lia|].
  apply checkQueue_loop_count in H; [|lia|lia].
  destruct H as (_ & Hlen & _). lia.
Qed.

Lemma checkQueue_locked_idle (p : Pool) :
  1 <= maxCount p <= int_max ->
  terminated p = false -> queue p = [] -> running p = 0 ->
  checkQueue_locked p = (p, [], true).
Proof.
  intros Hm Ht Hq Hr. unfold checkQueue_locked.
  rewrite Ht, Hr, Z.sub_0_r, wrap_id
    by (unfold int_min, int_max in *; lia).
  destruct (maxCount p <=? 0) eqn:Hle; [apply Z.leb_le in Hle; lia|].
  destruct (Z.to_nat (maxCount p)) as [|k] eqn:Hk; [lia|].
  simpl. rewrite Hq, Hr. reflexivity.
Qed.

Lemma New_Some (n : Z) (p : Pool) :
  New n = Some p ->
  p = {| maxCount := if n <=? 0 then 1 else n; queue := []; running := 0;
         results := make_chan 1; terminated := false;
         terminationChannel := make_chan 1;
         runCheckChannel := make_chan 1 |}
  /\ ((if n <=? 0 then 1 else n) < 2 ^ 62 \/ int_max < n).
Proof.
  unfold New, New_in, make_queue. intros H.
  destruct (wrap _ <? 0) eqn:Hw; [discriminate|].
  destruct (_ || _); [discriminate|].
  inversion H; subst; clear H. split; [reflexivity|].
  apply Z.ltb_ge in Hw.
  destruct (n <=? 0) eqn:Hn; [left; lia|].
  apply Z.leb_gt in Hn.
  destruct (Z_lt_le_dec n (2 ^ 62)) as [Hlt|Hge]; [left; exact Hlt|].
  right. destruct (Z_lt_le_dec int_max n) as [Hgt|Hle]; [exact Hgt|].
  exfalso. unfold wrap, int_max in *.
  replace (n * 2 + 2 ^ 63) with ((n * 2 - 2 ^ 63) + 1 * 2 ^ 64) in Hw by lia.
  rewrite Z.mod_add, Z.mod_small in Hw; lia.
Qed.

Lemma attemptTermination_frame (p : Pool) :
  queue (attemptTermination p) = queue p
  /\ running (attemptTermination p) = running p
  /\ maxCount (attemptTermination p) = maxCount p
  /\ results (attemptTermination p) = results p
  /\ runCheckChannel (attemptTermination p) = runCheckChannel p.
Proof.
  unfold attemptTermination. destruct (terminated p); simpl; auto.
Qed.

(** ** The constructor *)

Lemma make_queue_spec (avail c : Z) :
  (0 <= c /\ c * func_size <= Z.min avail max_alloc ->
   make_queue avail c = Some [])
  /\ (~ (0 <= c /\ c * func_size <= Z.min avail max_alloc) ->
      make_queue avail c = None).
Proof.
  unfold make_queue.
  destruct (c <? 0) eqn:H1; [apply Z.ltb_lt in H1|apply Z.ltb_ge in H1];
    destruct (max_alloc <? c * func_size) eqn:H2;
    [apply Z.ltb_lt in H2|apply Z.ltb_ge in H2| |];
    try (apply Z.ltb_lt in H2); try (apply Z.ltb_ge in H2);
    destruct (avail <? c * func_size) eqn:H3;
    try (apply Z.ltb_lt in H3); try (apply Z.ltb_ge in H3);
    simpl; split; intros H; try reflexivity; exfalso; lia.
Qed.

(** With more memory [New] returns at least the same pools. *)
Lemma New_in_Some (avail n : Z) (p : Pool) :
  New_in avail n = Some p -> New n = Some p.
Proof.
  unfold New, New_in. intros H.
  destruct (make_queue avail _) as [q|] eqn:Hq; [|discriminate].
  destruct (make_queue_spec max_alloc
              (wrap ((if n <=? 0 then 1 else n) * 2))) as [Hyes _].
  destruct (make_queue_spec avail
              (wrap ((if n <=? 0 then 1 else n) * 2))) as [Hyes' Hno].
  destruct (Z_le_dec 0 (wrap ((if n <=? 0 then 1 else n) * 2))) as [H0|H0].
  - destruct (Z_le_dec (wrap ((if n <=? 0 then 1 else n) * 2) * func_size)
                (Z.min avail max_alloc)) as [H1|H1].
    + rewrite Hyes by lia. rewrite Hyes' in Hq by lia. congruence.
    + rewrite Hno in Hq by lia. discriminate.
  - rewrite Hno in Hq by lia. discriminate.
Qed.

(** C5 (as amended): for every integer [n] for which the queue of
    [New] can be allocated, that is whose [2 * max n 1] slots of eight
    bytes are within [maxAlloc] ([2^48] bytes) and within what the
    allocator can grant, [New n] returns a pool whose limit is [n] if
    [n > 0] and [1] if [n <= 0], with an empty queue, a running count of
    zero and the terminated flag unset. *)
Theorem New_clamps_limit (avail n : Z) :
  2 * (if n <=? 0 then 1 else n) * func_size <= Z.min avail max_alloc ->
  exists p,
    New_in avail n = Some p
    /\ (0 < n -> maxCount p = n)
    /\ (n <= 0 -> maxCount p = 1)
    /\ queue p = []
    /\ running p = 0
    /\ terminated p = false.
Proof.
  intros Hn. unfold New_in.
  assert (Hm : 1 <= (if n <=? 0 then 1 else n) <= 2 ^ 44).
  { unfold func_size, max_alloc in Hn.
    destruct (n <=? 0) eqn:Hle; [lia|]. apply Z.leb_gt in Hle. lia. }
  rewrite wrap_id by (unfold int_min, int_max; lia).
  rewrite (proj1 (make_queue_spec avail ((if n <=? 0 then 1 else n) * 2)))
    by (unfold func_size in *; lia).
  eexists. split; [reflexivity|]. simpl.
  destruct (n <=? 0) eqn:Hle;
    [apply Z.leb_le in Hle | apply Z.leb_gt in Hle];
    repeat split; auto; lia.
Qed.

Lemma New_clamps_limit_witness :
  2 * (if 10 <=? 0 then 1 else 10) * func_size <= Z.min (2 ^ 30) max_alloc
  /\ exists p,
      New_in (2 ^ 30) 10 = Some p
      /\ (0 < 10 -> maxCount p = 10)
      /\ (10 <= 0 -> maxCount p = 1)
      /\ queue p = []
      /\ running p = 0
      /\ terminated p = false.
Proof.
  assert (H : 2 * (if 10 <=? 0 then 1 else 10) * func_size
              <= Z.min (2 ^ 30) max_alloc) by (vm_compute; discriminate).
  split; [exact H | exact (New_clamps_limit (2 ^ 30) 10 H)].
Defined.

(** C5 as stated fails: [2^62] is a value of [int], and [New] does not
    return a pool for it, however much memory there is, because the
    queue capacity [maxCount*2] wraps to a negative number and [make]
    panics. *)
Lemma New_panics_on_overflow :
  int_min <= 2 ^ 62 <= int_max /\ New (2 ^ 62) = None.
Proof. split; [split; discriminate | reflexivity]. Qed.

(** ** One call of checkQueue *)

(** C9: on a pool that has not terminated, with [limit - running > 0],
    one call of [checkQueue] launches the first
    [min (length pending) (limit - running)] tasks of the queue, removes
    exactly them, and adds their number to [running]; with
    [limit - running <= 0] it launches nothing and changes nothing. *)
Theorem checkQueue_admits_prefix (p : Pool) :
  pool_fields_ok p ->
  terminated p = false ->
  (0 < maxCount p - running p ->
   let n := Nat.min (length (queue p)) (Z.to_nat (maxCount p - running p)) in
   snd (checkQueue p) = take n (queue p)
   /\ queue (fst (checkQueue p)) = drop n (queue p)
   /\ running (fst (checkQueue p)) = running p + Z.of_nat n)
  /\ (maxCount p - running p <= 0 -> checkQueue p = (p, [])).
Proof.
  intros Hok Ht. split.
  - intros Ha n. unfold checkQueue.
    destruct (checkQueue_locked p) as [[p' ts] term] eqn:H.
    pose proof (checkQueue_locked_frame _ _ _ _ H) as (Hq & _).
    pose proof (checkQueue_locked_count _ _ _ _ H Hok) as (Hr & _).
    pose proof (checkQueue_locked_prefix _ _ _ _ H Hok Ht Ha) as Hlen.
    fold n in Hlen. simpl.
    assert (Hq' : queue (if term then attemptTermination p' else p') = queue p')
      by (destruct term; [apply attemptTermination_frame | reflexivity]).
    assert (Hr' : running (if term then attemptTermination p' else p')
                  = running p')
      by (destruct term; [apply attemptTermination_frame | reflexivity]).
    rewrite Hq', Hr', Hr, Hq, <- Hlen.
    rewrite take_app_length, drop_app_length. auto.
  - intros Ha. unfold checkQueue, checkQueue_locked.
    destruct Hok as [Hm Hr].
    rewrite Ht, wrap_id by (unfold int_min, int_max in *; lia).
    destruct (maxCount p - running p <=? 0) eqn:Hle; [reflexivity|].
    apply Z.leb_gt in Hle. lia.
Qed.

Lemma checkQueue_admits_prefix_witness :
  pool_fields_ok (idle_pool 2 [task_ok 1; task_ok 2; task_ok 3])
  /\ snd (checkQueue (idle_pool 2 [task_ok 1; task_ok 2; task_ok 3]))
     = [task_ok 1; task_ok 2]
  /\ queue (fst (checkQueue (idle_pool 2 [task_ok 1; task_ok 2; task_ok 3])))
     = [task_ok 3]
  /\ running (fst (checkQueue (idle_pool 2 [task_ok 1; task_ok 2; task_ok 3])))
     = 2.
Proof.
  assert (Hok : pool_fields_ok (idle_pool 2 [task_ok 1; task_ok 2; task_ok 3]))
    by (unfold pool_fields_ok, int_max; simpl; lia).
  split; [exact Hok|].
  apply (checkQueue_admits_prefix _ Hok); reflexivity.
Defined.

(** ** Counting lemmas *)

Lemma tally_app (f : Goroutine -> nat) (a b : list Goroutine) :
  tally f (a ++ b) = (tally f a + tally f b)%nat.
Proof. apply sum_list_with_app. Qed.

Lemma tally_insert (f : Goroutine -> nat) (gs : list Goroutine) :
  forall i g g',
    gs !! i = Some g ->
    (tally f (<[i := g']> gs) + f g = tally f gs + f g')%nat.
Proof.
  unfold tally.
  induction gs as [|h gs IH]; intros i g g' Hi; [discriminate|].
  destruct i as [|i]; simpl in *.
  - inversion Hi; subst. lia.
  - specialize (IH i g g' Hi). lia.
Qed.

Lemma tally_busy_spawned (ts : list Task) :
  tally busy (map GSpawned ts) = length ts.
Proof.
  unfold tally. induction ts as [|t ts IH]; simpl; [reflexivity|].
  rewrite IH. reflexivity.
Qed.

Lemma tally_weight_spawned (ts : list Task) :
  tally weight (map GSpawned ts) = (8 * length ts)%nat.
Proof.
  unfold tally. induction ts as [|t ts IH]; simpl; [reflexivity|].
  rewrite IH. lia.
Qed.

Lemma tally_in_task_le_busy (gs : list Goroutine) :
  (tally in_task gs <= tally busy gs)%nat.
Proof.
  unfold tally. induction gs as [|g gs IH]; simpl; [lia|].
  destruct g; simpl; lia.
Qed.

Lemma busy_goroutine_exists (gs : list Goroutine) :
  (0 < tally busy gs)%nat -> exists i g, gs !! i = Some g /\ g <> GDone.
Proof.
  unfold tally. induction gs as [|h gs IH]; simpl; intros H; [lia|].
  destruct (decide (busy h = 0%nat)) as [E|E].
  - destruct IH as (i & g & Hi & Hg); [lia|].
    exists (S i), g. auto.
  - exists 0%nat, h. split; [reflexivity|]. intros ->. apply E. reflexivity.
Qed.

Lemma spawned_app (a b : list Goroutine) :
  spawned (a ++ b) = spawned a ++ spawned b.
Proof. unfold spawned. apply flat_map_app. Qed.

Lemma spawned_map (ts : list Task) : spawned (map GSpawned ts) = ts.
Proof.
  unfold spawned. induction ts as [|t ts IH]; simpl; [reflexivity|].
  rewrite IH. reflexivity.
Qed.

(** Replacing a goroutine that is not at its start by one that is not
    either leaves the tasks not yet entered as they are. *)
Lemma spawned_insert_other (gs : list Goroutine) :
  forall i g g',
    gs !! i = Some g ->
    (forall t, g <> GSpawned t) ->
    (forall t, g' <> GSpawned t) ->
    spawned (<[i := g']> gs) = spawned gs.
Proof.
  unfold spawned.
  induction gs as [|h gs IH]; intros i g g' Hi Hg Hg'; [discriminate|].
  destruct i as [|i]; simpl in *.
  - inversion Hi; subst.
    destruct g; destruct g'; try reflexivity;
      solve [exfalso; eapply Hg; reflexivity
            |exfalso; eapply Hg'; reflexivity].
  - f_equal. eapply IH; eauto.
Qed.

(** With at most one goroutine counted as running, a goroutine at its
    start is the only one there. *)
Lemma spawned_single (gs : list Goroutine) :
  forall i t g',
    gs !! i = Some (GSpawned t) ->
    (tally busy gs <= 1)%nat ->
    (forall t', g' <> GSpawned t') ->
    spawned gs = [t] /\ spawned (<[i := g']> gs) = [].
Proof.
  unfold tally, spawned.
  induction gs as [|h gs IH]; intros i t g' Hi Hb Hg'; [discriminate|].
  assert (Hnone : forall l : list Goroutine,
             sum_list_with busy l = 0%nat ->
             flat_map (fun g => match g with GSpawned t => [t] | _ => [] end) l
             = []).
  { induction l as [|x l IHl]; simpl; intros Hs; [reflexivity|].
    destruct x; simpl in *; try lia; apply IHl; lia. }
  destruct i as [|i]; simpl in *.
  - inversion Hi; subst. simpl in *.
    rewrite (Hnone gs) by lia. split; [reflexivity|].
    destruct g'; try reflexivity. exfalso. eapply Hg'. reflexivity.
  - assert (Hh : busy h = 0%nat).
    { pose proof (tally_insert busy gs i (GSpawned t) GDone Hi) as Hins.
      unfold tally in Hins. simpl in Hins. lia. }
    destruct (IH i t g' Hi) as [H1 H2]; [lia|exact Hg'|].
    rewrite H1, H2. destruct h; simpl in *; try lia; auto.
Qed.

(** ** Every action decreases the measure *)

Lemma wait_check_measure (p : Pool) (rs : list TaskResult) (s : System) :
  (measure (wait_check p rs s)
   <= 12 * length (inbox s) + pool_weight p + tally weight (gos s) + 2)%nat.
Proof.
  unfold wait_check.
  destruct (checkQueue_locked p) as [[p' ts] term] eqn:H.
  apply checkQueue_locked_frame in H.
  destruct H as (Hq & Hm & Hr & Ht & Htc & Hrc).
  unfold measure, pool_weight. simpl.
  rewrite tally_app, tally_weight_spawned, Hq, length_app, Hr, Ht, Htc, Hrc.
  destruct term; simpl; lia.
Qed.

Lemma go_step_measure (i : nat) (s s' : System) :
  go_step i s = Some s' -> (measure s' < measure s)%nat.
Proof.
  unfold go_step. intros H.
  destruct (gos s !! i) as [g|] eqn:Hi; [|discriminate].
  destruct g.
  - inversion H; subst; clear H. unfold measure; simpl.
    pose proof (tally_insert weight _ _ _ (GInTask t) Hi). simpl in *. lia.
  - inversion H; subst; clear H. unfold measure; simpl.
    pose proof (tally_insert weight _ _ _
                  (GSend (task_result (task_ret t))) Hi).
    simpl in *. lia.
  - destruct (chan_send (results (pool s)) r) as [c|] eqn:Hc; [|discriminate].
    inversion H; subst; clear H. apply chan_send_Some in Hc.
    destruct Hc as (_ & Hb & _). unfold measure, pool_weight; simpl.
    rewrite Hb, length_app.
    pose proof (tally_insert weight _ _ _ GDecrement Hi). simpl in *. lia.
  - inversion H; subst; clear H. unfold measure, pool_weight; simpl.
    pose proof (tally_insert weight _ _ _ GAttemptCheck Hi). simpl in *. lia.
  - inversion H; subst; clear H. unfold measure, pool_weight; simpl.
    pose proof (tally_insert weight _ _ _ GDone Hi).
    pose proof (try_send_length (runCheckChannel (pool s)) true).
    simpl in *. lia.
  - discriminate.
Qed.

Lemma step_decreases (s s' : System) :
  step s s' -> (measure s' < measure s)%nat.
Proof.
  intros [a H]. destruct a; simpl in H.
  - destruct (inbox s) as [|t rest] eqn:Hin; [discriminate|].
    inversion H; subst; clear H.
    unfold measure, pool_weight; simpl.
    rewrite Hin, length_app, tally_app. simpl. unfold tally. simpl. lia.
  - eapply go_step_measure; eauto.
  - destruct (waiter s) eqn:Hw; try discriminate.
    inversion H; subst; clear H.
    pose proof (wait_check_measure (pool s) [] s).
    unfold measure at 2. rewrite Hw. simpl. lia.
  - destruct (waiter s) eqn:Hw; try discriminate.
    destruct (chan_recv (runCheckChannel (pool s))) as [[v c]|] eqn:Hc;
      [|discriminate].
    inversion H; subst; clear H. apply chan_recv_Some in Hc.
    destruct Hc as (_ & Hb & _).
    pose proof (wait_check_measure (set_runCheckChannel c (pool s)) rs s) as M.
    unfold measure at 2. rewrite Hw. unfold pool_weight in *.
    simpl in *. rewrite Hb. simpl. lia.
  - destruct (waiter s) eqn:Hw; try discriminate.
    destruct (chan_recv (results (pool s))) as [[v c]|] eqn:Hc;
      [|discriminate].
    inversion H; subst; clear H. apply chan_recv_Some in Hc.
    destruct Hc as (_ & Hb & _).
    unfold measure, pool_weight. simpl. rewrite Hw, Hb. simpl. lia.
  - destruct (waiter s) eqn:Hw; try discriminate.
    destruct (chan_recv (terminationChannel (pool s))) as [[v c]|] eqn:Hc;
      [|discriminate].
    inversion H; subst; clear H. apply chan_recv_Some in Hc.
    destruct Hc as (_ & Hb & _).
    unfold measure, pool_weight. simpl. rewrite Hw, Hb. simpl. lia.
  - destruct (waiter s) eqn:Hw; try discriminate.
    inversion H; subst; clear H.
    unfold measure, pool_weight, attemptTermination. rewrite Hw.
    destruct (terminated (pool s)) eqn:Ht; simpl; [rewrite Ht; lia|].
    pose proof (try_send_length (terminationChannel (pool s)) true).
    lia.
Qed.

(** ** The invariant *)

Lemma Inv_init (n : Z) (p : Pool) (tasks : list Task) :
  is_int n -> New n = Some p -> Inv (init p tasks).
Proof.
  intros [_ Hn] H. apply New_Some in H. destruct H as [-> Hr].
  assert (Hm : 1 <= (if n <=? 0 then 1 else n) <= int_max).
  { destruct (n <=? 0) eqn:E; [unfold int_max; lia|].
    apply Z.leb_gt in E. lia. }
  constructor; simpl; auto; try lia; discriminate.
Qed.

Lemma Inv_fields_ok (s : System) : Inv s -> pool_fields_ok (pool s).
Proof.
  intros [Hlim Hrun Hbound _ _ _ _ _ _ _]. unfold pool_fields_ok. lia.
Qed.

Lemma Inv_wait_check (p : Pool) (rs : list TaskResult) (s : System) :
  Inv s ->
  waiter s = WNotCalled \/ waiter s = WSelect rs ->
  maxCount p = maxCount (pool s) ->
  running p = running (pool s) ->
  results p = results (pool s) ->
  terminated p = terminated (pool s) ->
  terminationChannel p = terminationChannel (pool s) ->
  cap (runCheckChannel p) = 1%nat ->
  Inv (wait_check p rs s).
Proof.
  intros HI Hw Em Er Ers Et Etc Hcap.
  assert (Hok : pool_fields_ok p).
  { apply Inv_fields_ok in HI. unfold pool_fields_ok in *.
    rewrite Em, Er. exact HI. }
  destruct HI as [Hlim Hrun Hbound Hcr Hct Hcc Hnt Ht Htg Hwk].
  unfold wait_check.
  destruct (checkQueue_locked p) as [[p' ts] term] eqn:H.
  pose proof (checkQueue_locked_frame _ _ _ _ H)
    as (Hq & Fm & Fr & Ft & Ftc & Frc).
  pose proof (checkQueue_locked_count _ _ _ _ H Hok)
    as (Crun & Cbound & Cterm & Cpos).
  constructor; simpl.
  - rewrite Fm, Em. exact Hlim.
  - rewrite Crun, Er, Hrun, tally_app, tally_busy_spawned. lia.
  - rewrite Fm. apply Cbound. lia.
  - rewrite Fr, Ers. exact Hcr.
  - rewrite Ftc, Etc. exact Hct.
  - rewrite Frc. exact Hcap.
  - rewrite Ft, Et, Ftc, Etc. intros E. destruct (Hnt E) as (? & ? & ?).
    repeat split; auto. intros rs'. destruct term; discriminate.
  - rewrite Ft, Et, Ftc, Etc. intros E.
    destruct (Ht E) as (R0 & S1 & Hb & Hnc & Hnterm).
    assert (term = false) as ->.
    { destruct term; [|reflexivity].
      destruct Cterm as (_ & _ & _ & _ & Ef); [reflexivity|]. congruence. }
    assert (ts = []) as ->.
    { unfold checkQueue_locked in H. rewrite Et, E in H.
      inversion H. reflexivity. }
    simpl in Crun. repeat split; try discriminate; try lia; auto.
    intros rs' Ers'. inversion Ers'; subst.
    destruct Hw as [Hw|Hw]; [contradiction|]. eapply Hb; eauto.
  - intros rs' Ers'. destruct term; [|discriminate].
    destruct Cterm as (-> & _ & _ & R0 & _); [reflexivity|]. exact R0.
  - intros rs' Ers' E. destruct term; [discriminate|].
    left. apply busy_goroutine_exists.
    rewrite tally_app, tally_busy_spawned.
    rewrite Ft in E.
    destruct (Cpos eq_refl E) as [C|C]; lia.
Qed.

Lemma live_insert (gs : list Goroutine) (i : nat) (g g' : Goroutine) :
  gs !! i = Some g -> g' <> GDone ->
  exists j h, <[i := g']> gs !! j = Some h /\ h <> GDone.
Proof.
  intros Hi Hg. exists i, g'. split; [|exact Hg].
  apply list_lookup_insert_eq. eapply lookup_lt_Some; eauto.
Qed.

Lemma Inv_go_step (i : nat) (s s' : System) :
  Inv s -> go_step i s = Some s' -> Inv s'.
Proof.
  intros HI H. unfold go_step in H.
  destruct HI as [Hlim Hrun Hbound Hcr Hct Hcc Hnt Ht Htg Hwk].
  destruct (gos s !! i) as [g|] eqn:Hi; [|discriminate].
  destruct g.
  - inversion H; subst; clear H.
    pose proof (tally_insert busy _ _ _ (GInTask t) Hi) as B. simpl in B.
    constructor; simpl; auto.
    + rewrite Hrun. lia.
    + intros rs Hw E. left. eapply live_insert; eauto; discriminate.
  - inversion H; subst; clear H.
    pose proof (tally_insert busy _ _ _
                  (GSend (task_result (task_ret t))) Hi) as B. simpl in B.
    constructor; simpl; auto.
    + rewrite Hrun. lia.
    + intros rs Hw E. left. eapply live_insert; eauto; discriminate.
  - destruct (chan_send (results (pool s)) r) as [c|] eqn:Hc; [|discriminate].
    inversion H; subst; clear H. apply chan_send_Some in Hc.
    destruct Hc as (Hcap & _ & _).
    pose proof (tally_insert busy _ _ _ GDecrement Hi) as B. simpl in B.
    constructor; simpl; auto.
    + rewrite Hrun. lia.
    + congruence.
    + intros rs Hw E. left. eapply live_insert; eauto; discriminate.
  - inversion H; subst; clear H.
    pose proof (tally_insert busy _ _ _ GAttemptCheck Hi) as B. simpl in B.
    assert (Hw : wrap (running (pool s) - 1) = running (pool s) - 1)
      by (apply wrap_id; unfold int_min, int_max in *; lia).
    constructor; simpl; rewrite ?Hw; auto; try lia.
    + intros E. destruct (Ht E) as (R0 & _). lia.
    + intros rs E. specialize (Htg rs E). lia.
    + intros rs E1 E2. left. eapply live_insert; eauto; discriminate.
  - inversion H; subst; clear H.
    pose proof (tally_insert busy _ _ _ GDone Hi) as B. simpl in B.
    constructor; simpl; auto.
    + rewrite Hrun. lia.
    + rewrite try_send_cap. exact Hcc.
    + intros rs E1 E2. right. apply try_send_nonempty. exact Hcc.
  - discriminate.
Qed.

Lemma Inv_step (s s' : System) : Inv s -> step s s' -> Inv s'.
Proof.
  intros HI [a H]. destruct a; simpl in H.
  - destruct (inbox s) as [|t rest] eqn:Hin; [discriminate|].
    inversion H; subst; clear H.
    destruct HI as [Hlim Hrun Hbound Hcr Hct Hcc Hnt Ht Htg Hwk].
    constructor; simpl; auto.
    + rewrite tally_app. unfold tally at 2. simpl. lia.
    + intros rs E1 E2. left. exists (length (gos s)), GAttemptCheck.
      split; [|discriminate]. apply list_lookup_middle. reflexivity.
  - eapply Inv_go_step; eauto.
  - destruct (waiter s) eqn:Hw; try discriminate.
    inversion H; subst; clear H.
    apply Inv_wait_check; auto. apply HI.
  - destruct (waiter s) eqn:Hw; try discriminate.
    destruct (chan_recv (runCheckChannel (pool s))) as [[v c]|] eqn:Hc;
      [|discriminate].
    inversion H; subst; clear H. apply chan_recv_Some in Hc.
    destruct Hc as (Hcap & _ & _).
    apply Inv_wait_check; auto. simpl. rewrite Hcap. apply HI.
  - destruct (waiter s) eqn:Hw; try discriminate.
    destruct (chan_recv (results (pool s))) as [[v c]|] eqn:Hc;
      [|discriminate].
    inversion H; subst; clear H. apply chan_recv_Some in Hc.
    destruct Hc as (Hcap & _ & _).
    destruct HI as [Hlim Hrun Hbound Hcr Hct Hcc Hnt Ht Htg Hwk].
    constructor; simpl; auto; try congruence.
    + intros E. destruct (Hnt E) as (? & ? & ?).
      repeat split; auto; discriminate.
    + intros E. destruct (Ht E) as (? & ? & Hb & ? & ?).
      repeat split; auto; try discriminate.
      intros rs' _. eapply Hb; eauto.
    + intros rs' _ E. eapply Hwk; eauto.
  - destruct (waiter s) eqn:Hw; try discriminate.
    destruct (chan_recv (terminationChannel (pool s))) as [[v c]|] eqn:Hc;
      [|discriminate].
    inversion H; subst; clear H. apply chan_recv_Some in Hc.
    destruct Hc as (Hcap & Hbuf & Hsent).
    destruct HI as [Hlim Hrun Hbound Hcr Hct Hcc Hnt Ht Htg Hwk].
    constructor; simpl; auto; try congruence.
    + intros E. destruct (Hnt E) as (Hb & _). congruence.
    + intros E. destruct (Ht E) as (? & ? & Hb & ? & ?).
      repeat split; auto; try discriminate. congruence.
  - destruct (waiter s) eqn:Hw; try discriminate.
    inversion H; subst; clear H.
    destruct HI as [Hlim Hrun Hbound Hcr Hct Hcc Hnt Ht Htg Hwk].
    assert (E : terminated (pool s) = false).
    { destruct (terminated (pool s)) eqn:E; [|reflexivity].
      destruct (Ht eq_refl) as (_ & _ & _ & _ & Hn).
      exfalso. eapply Hn; eauto. }
    destruct (Hnt E) as (Hb & Hs & _).
    unfold attemptTermination. rewrite E.
    unfold chan_try_send. simpl.
    rewrite (can_send_empty _ Hct Hb).
    constructor; simpl; auto; try discriminate.
    intros _. rewrite Hb, Hs. specialize (Htg rs Hw).
    repeat split; auto; discriminate.
Qed.

Lemma Inv_reachable (s0 s : System) : Inv s0 -> reachable s0 s -> Inv s.
Proof.
  intros H0 Hr. induction Hr as [|x y z Hxy Hyz IH]; [exact H0|].
  apply IH. eapply Inv_step; eauto.
Qed.

(** The limit is fixed at construction. *)
Lemma step_maxCount (s s' : System) :
  step s s' -> maxCount (pool s') = maxCount (pool s).
Proof.
  intros [a H].
  assert (Hwc : forall p rs, maxCount (pool (wait_check p rs s)) = maxCount p).
  { intros p rs. unfold wait_check.
    destruct (checkQueue_locked p) as [[p' ts] term] eqn:Hc.
    apply checkQueue_locked_frame in Hc. simpl. tauto. }
  destruct a; simpl in H.
  - destruct (inbox s); inversion H; reflexivity.
  - unfold go_step in H.
    destruct (gos s !! i) as [g|]; [|discriminate].
    destruct g; try (inversion H; reflexivity).
    destruct (chan_send _ _); inversion H; reflexivity.
  - destruct (waiter s); inversion H. apply Hwc.
  - destruct (waiter s); try discriminate.
    destruct (chan_recv _) as [[v c]|]; inversion H. rewrite Hwc. reflexivity.
  - destruct (waiter s); try discriminate.
    destruct (chan_recv _) as [[v c]|]; inversion H. reflexivity.
  - destruct (waiter s); try discriminate.
    destruct (chan_recv _) as [[v c]|]; inversion H. reflexivity.
  - destruct (waiter s); inversion H. simpl.
    apply attemptTermination_frame.
Qed.

Lemma reachable_maxCount (s0 s : System) :
  reachable s0 s -> maxCount (pool s) = maxCount (pool s0).
Proof.
  intros Hr. induction Hr as [|x y z Hxy Hyz IH]; [reflexivity|].
  rewrite IH. apply step_maxCount. exact Hxy.
Qed.

(** ** The capacity bound *)

(** C2: in every reachable state, whatever the interleaving of [Run],
    [checkQueue] and the workers, [0 <= running <= limit], where the
    limit is the value fixed by [New] ([n], or [1] when [n <= 0]) and is
    at least [1]; the tasks being executed are among the [running]. *)
Theorem running_within_limit (n : Z) (p : Pool) (tasks : list Task) (s : System) :
  is_int n ->
  New n = Some p ->
  reachable (init p tasks) s ->
  maxCount (pool s) = (if n <=? 0 then 1 else n)
  /\ 1 <= maxCount (pool s)
  /\ 0 <= running (pool s) <= maxCount (pool s)
  /\ Z.of_nat (tally in_task (gos s)) <= running (pool s).
Proof.
  intros Hn HN Hr.
  pose proof (Inv_reachable _ _ (Inv_init n p tasks Hn HN) Hr) as HI.
  pose proof (reachable_maxCount _ _ Hr) as Hm. simpl in Hm.
  apply New_Some in HN. destruct HN as [-> _]. simpl in Hm.
  destruct HI as [Hlim Hrun Hbound _ _ _ _ _ _ _].
  pose proof (tally_in_task_le_busy (gos s)).
  repeat split; lia.
Qed.

Lemma exec_reachable (acts : list Action) :
  forall s s', exec acts s = Some s' -> reachable s s'.
Proof.
  induction acts as [|a acts IH]; intros s s' H; simpl in H.
  - inversion H. apply rtc_refl.
  - destruct (do_action a s) as [s1|] eqn:Ha; [|discriminate].
    eapply rtc_l; [exists a; exact Ha|]. apply IH. exact H.
Qed.

Lemma running_within_limit_witness :
  is_int 2
  /\ New 2 = Some (idle_pool 2 [])
  /\ exists s,
      exec demo_schedule (init (idle_pool 2 []) demo_tasks) = Some s
      /\ running (pool s) = 2
      /\ (maxCount (pool s) = 2
          /\ 1 <= maxCount (pool s)
          /\ 0 <= running (pool s) <= maxCount (pool s)
          /\ Z.of_nat (tally in_task (gos s)) <= running (pool s)).
Proof.
  assert (Hi : is_int 2) by (unfold is_int, int_min, int_max; lia).
  split; [exact Hi|]. split; [reflexivity|].
  eexists. split; [vm_compute; reflexivity|]. split; [reflexivity|].
  apply (running_within_limit 2 (idle_pool 2 []) demo_tasks _ Hi eq_refl).
  apply (exec_reachable demo_schedule). vm_compute. reflexivity.
Defined.

(** ** No deadlock, and [Wait] returns *)

Lemma chan_recv_nonempty {A : Type} (c : chan A) :
  buf c <> [] -> exists v c', chan_recv c = Some (v, c').
Proof.
  unfold chan_recv. destruct (buf c) as [|v rest]; [congruence|].
  intros _. eauto.
Qed.

(** Until [Wait] has returned, some action can be taken. *)
Lemma progress (s : System) :
  Inv s -> (forall rs, waiter s <> WReturned rs) -> exists s', step s s'.
Proof.
  intros [Hlim Hrun Hbound Hcr Hct Hcc Hnt Ht Htg Hwk] Hnr.
  destruct (waiter s) as [|rs|rs|rs] eqn:Hw.
  - eexists. exists AWait. simpl. rewrite Hw. reflexivity.
  - destruct (terminated (pool s)) eqn:E.
    + destruct (Ht eq_refl) as (_ & _ & Hb & _).
      destruct (chan_recv_nonempty _ (Hb rs eq_refl)) as (v & c & Hc).
      eexists. exists ARecvTermination. simpl. rewrite Hw, Hc. reflexivity.
    + destruct (Hwk rs eq_refl eq_refl) as [(i & g & Hi & Hg)|Hb].
      * destruct g; try congruence;
          try (eexists; exists (AGo i); simpl; unfold go_step; rewrite Hi;
               reflexivity).
        destruct (can_send (results (pool s))) eqn:Hs.
        -- eexists. exists (AGo i). simpl. unfold go_step, chan_send.
           rewrite Hi, Hs. reflexivity.
        -- apply can_send_full in Hs; [|exact Hcr].
           destruct (chan_recv_nonempty _ Hs) as (v & c & Hc).
           eexists. exists ARecvResult. simpl. rewrite Hw, Hc. reflexivity.
      * destruct (chan_recv_nonempty _ Hb) as (v & c & Hc).
        eexists. exists ARecvCheck. simpl. rewrite Hw, Hc. reflexivity.
  - eexists. exists ATerminate. simpl. rewrite Hw. reflexivity.
  - exfalso. eapply Hnr. reflexivity.
Qed.

Lemma Inv_eventually_returns (m : nat) :
  forall s, (measure s <= m)%nat -> Inv s -> eventually_returns s.
Proof.
  induction m as [|m IH]; intros s Hm HI.
  - destruct (waiter s) as [|rs|rs|rs] eqn:Hw;
      try (destruct (progress s HI) as [s' Hs];
           [rewrite Hw; discriminate|];
           apply step_decreases in Hs; lia).
    eapply er_returned; eauto.
  - destruct (waiter s) as [|rs|rs|rs] eqn:Hw;
      try (apply er_step;
           [apply progress; [exact HI | rewrite Hw; discriminate]
           |intros s' Hs; apply IH;
            [apply step_decreases in Hs; lia | eapply Inv_step; eauto]]).
    eapply er_returned; eauto.
Qed.

(** C4: for every limit that [New] yields (at least [1]) and every
    finite list of tasks whose bodies return, from every reachable state
    every run of the program leads to the return of [Wait]: until then
    some goroutine can always act (no deadlock), and no run goes on for
    ever. *)
Theorem Wait_eventually_returns (n : Z) (p : Pool) (tasks : list Task) (s : System) :
  is_int n ->
  New n = Some p ->
  reachable (init p tasks) s ->
  eventually_returns s.
Proof.
  intros Hn HN Hr.
  apply (Inv_eventually_returns (measure s)); [lia|].
  eapply Inv_reachable; [|exact Hr]. eapply Inv_init; eauto.
Qed.

Lemma Wait_eventually_returns_witness :
  is_int 2
  /\ New 2 = Some (idle_pool 2 [])
  /\ reachable (init (idle_pool 2 []) demo_tasks)
       (init (idle_pool 2 []) demo_tasks)
  /\ eventually_returns (init (idle_pool 2 []) demo_tasks).
Proof.
  assert (Hi : is_int 2) by (unfold is_int, int_min, int_max; lia).
  assert (Hr : reachable (init (idle_pool 2 []) demo_tasks)
                 (init (idle_pool 2 []) demo_tasks)) by apply rtc_refl.
  split; [exact Hi|]. split; [reflexivity|]. split; [exact Hr|].
  exact (Wait_eventually_returns 2 (idle_pool 2 []) demo_tasks _ Hi eq_refl Hr).
Defined.

(** ** FIFO admission *)

Lemma InvFifo_wait_check (p : Pool) (rs : list TaskResult) (s : System) :
  InvFifo s ->
  queue p = queue (pool s) ->
  maxCount p = maxCount (pool s) ->
  InvFifo (wait_check p rs s).
Proof.
  intros [Hq Hs] Eq Em. unfold wait_check.
  destruct (checkQueue_locked p) as [[p' ts] term] eqn:H.
  apply checkQueue_locked_frame in H. destruct H as (Fq & Fm & _).
  constructor; simpl.
  - rewrite Hq, <- Eq, Fq, app_assoc. reflexivity.
  - rewrite Fm, Em. intros E.
    rewrite spawned_app, spawned_map, (Hs E), app_assoc. reflexivity.
Qed.

Lemma InvFifo_go_step (i : nat) (s s' : System) :
  Inv s -> InvFifo s -> go_step i s = Some s' -> InvFifo s'.
Proof.
  intros HI [Hq Hs] H. unfold go_step in H.
  destruct (gos s !! i) as [g|] eqn:Hi; [|discriminate].
  destruct g.
  - inversion H; subst; clear H. constructor; simpl; [exact Hq|].
    intros E. destruct HI as [_ Hrun Hbound _ _ _ _ _ _ _].
    destruct (spawned_single (gos s) i t (GInTask t) Hi) as [S1 S2];
      [lia | discriminate |].
    rewrite S2, app_nil_r, (Hs E), S1. reflexivity.
  - inversion H; subst; clear H. constructor; simpl; [exact Hq|].
    intros E. rewrite (spawned_insert_other _ _ _ _ Hi); auto; discriminate.
  - destruct (chan_send _ _); inversion H; subst; clear H.
    constructor; simpl; [exact Hq|].
    intros E. rewrite (spawned_insert_other _ _ _ _ Hi); auto; discriminate.
  - inversion H; subst; clear H. constructor; simpl; [exact Hq|].
    intros E. rewrite (spawned_insert_other _ _ _ _ Hi); auto; discriminate.
  - inversion H; subst; clear H. constructor; simpl; [exact Hq|].
    intros E. rewrite (spawned_insert_other _ _ _ _ Hi); auto; discriminate.
  - discriminate.
Qed.

Lemma InvFifo_step (s s' : System) :
  Inv s -> InvFifo s -> step s s' -> InvFifo s'.
Proof.
  intros HI HF [a H]. destruct a; simpl in H.
  - destruct (inbox s) as [|t rest]; [discriminate|].
    inversion H; subst; clear H. destruct HF as [Hq Hs].
    constructor; simpl.
    + rewrite Hq, app_assoc. reflexivity.
    + intros E. rewrite spawned_app. simpl. rewrite app_nil_r. auto.
  - eapply InvFifo_go_step; eauto.
  - destruct (waiter s); try discriminate.
    inversion H; subst; clear H. apply InvFifo_wait_check; auto.
  - destruct (waiter s); try discriminate.
    destruct (chan_recv _) as [[v c]|]; [|discriminate].
    inversion H; subst; clear H. apply InvFifo_wait_check; auto.
  - destruct (waiter s); try discriminate.
    destruct (chan_recv _) as [[v c]|]; [|discriminate].
    inversion H; subst; clear H. destruct HF as [Hq Hs].
    constructor; simpl; auto.
  - destruct (waiter s); try discriminate.
    destruct (chan_recv _) as [[v c]|]; [|discriminate].
    inversion H; subst; clear H. destruct HF as [Hq Hs].
    constructor; simpl; auto.
  - destruct (waiter s); try discriminate.
    inversion H; subst; clear H. destruct HF as [Hq Hs].
    destruct (attemptTermination_frame (pool s)) as (Fq & _ & Fm & _).
    constructor; simpl; rewrite ?Fq, ?Fm; auto.
Qed.

Lemma InvFifo_reachable (s0 s : System) :
  Inv s0 -> InvFifo s0 -> reachable s0 s -> InvFifo s.
Proof.
  intros HI HF Hr. induction Hr as [|x y z Hxy Hyz IH]; [exact HF|].
  apply IH; [eapply Inv_step | eapply InvFifo_step]; eauto.
Qed.

(** What callers have pushed and what they have yet to push. *)
Lemma step_submitted (s s' : System) :
  step s s' -> submitted s' ++ inbox s' = submitted s ++ inbox s.
Proof.
  intros [a H]. destruct a; simpl in H.
  - destruct (inbox s) as [|t rest]; inversion H; simpl.
    rewrite <- app_assoc. reflexivity.
  - unfold go_step in H. destruct (gos s !! i) as [g|]; [|discriminate].
    destruct g; try (inversion H; reflexivity).
    destruct (chan_send _ _); inversion H; reflexivity.
  - destruct (waiter s); inversion H. unfold wait_check.
    destruct (checkQueue_locked _) as [[? ?] ?]. reflexivity.
  - destruct (waiter s); try discriminate.
    destruct (chan_recv _) as [[v c]|]; inversion H. unfold wait_check.
    destruct (checkQueue_locked _) as [[? ?] ?]. reflexivity.
  - destruct (waiter s); try discriminate.
    destruct (chan_recv _) as [[v c]|]; inversion H. reflexivity.
  - destruct (waiter s); try discriminate.
    destruct (chan_recv _) as [[v c]|]; inversion H. reflexivity.
  - destruct (waiter s); inversion H. reflexivity.
Qed.

Lemma reachable_submitted (s0 s : System) :
  reachable s0 s -> submitted s ++ inbox s = submitted s0 ++ inbox s0.
Proof.
  intros Hr. induction Hr as [|x y z Hxy Hyz IH]; [reflexivity|].
  rewrite IH. apply step_submitted. exact Hxy.
Qed.

(** C6: [Run] appends at the tail of the queue and [checkQueue] launches
    from its head, so in every reachable state the tasks, in the order
    they are submitted, are the launched ones followed by the queued
    ones and those not yet submitted; and with limit [1] the tasks whose
    body has been entered, in the order they were entered, are a prefix
    of the tasks in submission order. *)
Theorem fifo_start_order (n : Z) (p : Pool) (tasks : list Task) (s : System) :
  is_int n ->
  New n = Some p ->
  reachable (init p tasks) s ->
  (forall t q, queue (pushToQueue t q) = queue q ++ [t])
  /\ (forall q q' ts term,
        checkQueue_locked q = (q', ts, term) -> queue q = ts ++ queue q')
  /\ tasks = launched s ++ queue (pool s) ++ inbox s
  /\ (maxCount p = 1 ->
      tasks = started s ++ spawned (gos s) ++ queue (pool s) ++ inbox s).
Proof.
  intros Hn HN Hr.
  pose proof (Inv_init n p tasks Hn HN) as HI.
  assert (Hq0 : queue p = [])
    by (destruct (New_Some _ _ HN) as [-> _]; reflexivity).
  assert (HF : InvFifo (init p tasks))
    by (constructor; simpl; rewrite ?Hq0; reflexivity).
  pose proof (InvFifo_reachable _ _ HI HF Hr) as [Hq Hs].
  pose proof (reachable_submitted _ _ Hr) as Hsub. simpl in Hsub.
  pose proof (reachable_maxCount _ _ Hr) as Hm. simpl in Hm.
  split; [reflexivity|]. split.
  { intros q q' ts term H. apply checkQueue_locked_frame in H. tauto. }
  split.
  - rewrite <- Hsub, Hq, <- app_assoc. reflexivity.
  - intros E. rewrite <- Hsub, Hq, Hs by congruence.
    rewrite <- !app_assoc. reflexivity.
Qed.

Lemma fifo_start_order_witness :
  is_int 1
  /\ New 1 = Some (idle_pool 1 [])
  /\ exists s,
      exec fifo_schedule (init (idle_pool 1 []) demo_tasks) = Some s
      /\ started s = [task_ok 1; task_err 2 "boom"]
      /\ demo_tasks = started s ++ spawned (gos s) ++ queue (pool s) ++ inbox s.
Proof.
  assert (Hi : is_int 1) by (unfold is_int, int_min, int_max; lia).
  split; [exact Hi|]. split; [reflexivity|].
  eexists. split; [vm_compute; reflexivity|]. split; [reflexivity|].
  apply (fifo_start_order 1 (idle_pool 1 []) demo_tasks _ Hi eq_refl);
    [|reflexivity].
  apply (exec_reachable fifo_schedule). vm_compute. reflexivity.
Defined.

(** ** Termination flag *)

(** An action either leaves the flag as it is, or it is the
    [attemptTermination] of line 92. *)
Lemma step_terminated (s s' : System) :
  step s s' ->
  terminated (pool s') = terminated (pool s)
  \/ exists rs,
      waiter s = WTerminate rs
      /\ s' = set_waiter (WSelect rs) (set_pool (attemptTermination (pool s)) s).
Proof.
  intros [a H].
  assert (Hwc : forall p rs,
             terminated (pool (wait_check p rs s)) = terminated p).
  { intros p rs. unfold wait_check.
    destruct (checkQueue_locked p) as [[p' ts] term] eqn:Hc.
    apply checkQueue_locked_frame in Hc. simpl. tauto. }
  destruct a; simpl in H.
  - destruct (inbox s); inversion H; left; reflexivity.
  - left. unfold go_step in H.
    destruct (gos s !! i) as [g|]; [|discriminate].
    destruct g; try (inversion H; reflexivity).
    destruct (chan_send _ _); inversion H; reflexivity.
  - destruct (waiter s); inversion H. left. apply Hwc.
  - destruct (waiter s); try discriminate.
    destruct (chan_recv _) as [[v c]|]; inversion H. left. rewrite Hwc.
    reflexivity.
  - destruct (waiter s); try discriminate.
    destruct (chan_recv _) as [[v c]|]; inversion H. left. reflexivity.
  - destruct (waiter s); try discriminate.
    destruct (chan_recv _) as [[v c]|]; inversion H. left. reflexivity.
  - destruct (waiter s) eqn:Hw; inversion H. right. eauto.
Qed.

Lemma attemptTermination_sets (p : Pool) :
  terminated (attemptTermination p) = true.
Proof.
  unfold attemptTermination. destruct (terminated p) eqn:E; [exact E|].
  reflexivity.
Qed.

(** The goroutine in [Wait] gets between lines 91 and 92 only from a
    locked check that found the queue empty and nothing running. *)
Lemma step_enters_terminate (s s' : System) (rs : list TaskResult) :
  Inv s ->
  step s s' ->
  (forall rs0, waiter s <> WTerminate rs0) ->
  waiter s' = WTerminate rs ->
  queue (pool s') = [] /\ running (pool s') = 0
  /\ terminated (pool s') = false.
Proof.
  intros HI [a H] Hn Hw'.
  assert (Hwc : forall p rs0,
             pool_fields_ok p ->
             waiter (wait_check p rs0 s) = WTerminate rs ->
             queue (pool (wait_check p rs0 s)) = []
             /\ running (pool (wait_check p rs0 s)) = 0
             /\ terminated (pool (wait_check p rs0 s)) = false).
  { intros p rs0 Hok. unfold wait_check.
    destruct (checkQueue_locked p) as [[p' ts] term] eqn:Hc.
    pose proof (checkQueue_locked_count _ _ _ _ Hc Hok) as (_ & _ & Ct & _).
    simpl. destruct term; [|discriminate]. intros _.
    destruct Ct as (-> & _ & ? & ? & ?); auto. }
  pose proof (Inv_fields_ok _ HI) as Hok.
  destruct a; simpl in H.
  - destruct (inbox s); inversion H; subst; simpl in Hw'.
    exfalso. eapply Hn; eauto.
  - unfold go_step in H.
    destruct (gos s !! i) as [g|]; [|discriminate].
    destruct g; try destruct (chan_send _ _);
      inversion H; subst; simpl in Hw'; exfalso; eapply Hn; eauto.
  - destruct (waiter s); inversion H; subst. apply Hwc; auto.
  - destruct (waiter s); try discriminate.
    destruct (chan_recv _) as [[v c]|]; inversion H; subst.
    apply Hwc; auto.
  - destruct (waiter s); try discriminate.
    destruct (chan_recv _) as [[v c]|]; inversion H; subst. discriminate.
  - destruct (waiter s); try discriminate.
    destruct (chan_recv _) as [[v c]|]; inversion H; subst. discriminate.
  - destruct (waiter s); inversion H; subst. discriminate.
Qed.

(** C7 (as amended): the flag is never reset; it goes from false to true
    only by the [attemptTermination] call of line 92, at a moment when
    [running] is zero; the goroutine in [Wait] reaches that call only
    from a locked check that found the queue empty and [running] zero;
    and the termination signal is sent at most once: not at all while
    the flag is unset, exactly once when it is set. *)
Theorem terminated_one_shot (n : Z) (p : Pool) (tasks : list Task) (s s' : System) :
  is_int n ->
  New n = Some p ->
  reachable (init p tasks) s ->
  step s s' ->
  (terminated (pool s) = true -> terminated (pool s') = true)
  /\ (terminated (pool s) = false -> terminated (pool s') = true ->
      running (pool s) = 0
      /\ exists rs,
          waiter s = WTerminate rs
          /\ s' = set_waiter (WSelect rs)
                    (set_pool (attemptTermination (pool s)) s))
  /\ (forall rs,
        (forall rs0, waiter s <> WTerminate rs0) ->
        waiter s' = WTerminate rs ->
        queue (pool s') = [] /\ running (pool s') = 0
        /\ terminated (pool s') = false)
  /\ (terminated (pool s') = false -> sent (terminationChannel (pool s')) = 0%nat)
  /\ (terminated (pool s') = true -> sent (terminationChannel (pool s')) = 1%nat).
Proof.
  intros Hn HN Hr Hs.
  pose proof (Inv_reachable _ _ (Inv_init n p tasks Hn HN) Hr) as HI.
  pose proof (Inv_step _ _ HI Hs) as HI'.
  split; [|split; [|split; [|split]]].
  - intros E. destruct (step_terminated _ _ Hs) as [Eq|(rs & _ & ->)].
    + congruence.
    + simpl. apply attemptTermination_sets.
  - intros E E'. destruct (step_terminated _ _ Hs) as [Eq|(rs & Hw & ->)].
    + congruence.
    + split; [|eauto]. destruct HI. eauto.
  - intros rs Hnot Hw'. exact (step_enters_terminate s s' rs HI Hs Hnot Hw').
  - intros E. destruct HI' as [_ _ _ _ _ _ Hnt _ _ _]. apply Hnt. exact E.
  - intros E. destruct HI' as [_ _ _ _ _ _ _ Ht _ _]. apply Ht. exact E.
Qed.

Lemma terminated_one_shot_witness :
  is_int 1
  /\ New 1 = Some (idle_pool 1 [])
  /\ exists s s',
      exec late_run_schedule (init (idle_pool 1 []) [task_ok 1]) = Some s
      /\ do_action ATerminate s = Some s'
      /\ terminated (pool s) = false
      /\ terminated (pool s') = true
      /\ running (pool s) = 0
      /\ sent (terminationChannel (pool s')) = 1%nat.
Proof.
  assert (Hi : is_int 1) by (unfold is_int, int_min, int_max; lia).
  split; [exact Hi|]. split; [reflexivity|].
  eexists. eexists.
  split; [vm_compute; reflexivity|].
  split; [vm_compute; reflexivity|].
  split; [reflexivity|]. split; [reflexivity|].
  match goal with
  | |- running (pool ?s) = 0 /\ sent (terminationChannel (pool ?s')) = 1%nat =>
      assert (Hr : reachable (init (idle_pool 1 []) [task_ok 1]) s)
        by (apply (exec_reachable late_run_schedule); vm_compute; reflexivity);
      assert (Hs : step s s') by (exists ATerminate; vm_compute; reflexivity);
      destruct (terminated_one_shot 1 (idle_pool 1 []) [task_ok 1] s s'
                  Hi eq_refl Hr Hs) as (_ & H2 & _ & _ & H5)
  end.
  split; [apply H2; reflexivity | apply H5; reflexivity].
Defined.

(** C7 as stated fails: when [Run] pushes a task between lines 91 and 92
    the flag is set in a state whose queue is not empty. *)
Lemma terminated_set_with_pending_task : ~ terminated_set_only_when_idle.
Proof.
  intros H.
  edestruct (H 1 (idle_pool 1 []) [task_ok 1]) as [Hq _];
    [ reflexivity
    | apply (exec_reachable late_run_schedule); vm_compute; reflexivity
    | exists ATerminate; vm_compute; reflexivity
    | reflexivity
    | reflexivity
    | discriminate Hq ].
Qed.

(** ** After termination *)

Lemma checkQueue_locked_terminated (p : Pool) :
  terminated p = true -> checkQueue_locked p = (p, [], false).
Proof. intros E. unfold checkQueue_locked. rewrite E. reflexivity. Qed.

(** Once the flag is set, an action launches nothing, no task body is
    entered, and the queue can only grow. *)
Lemma step_after_termination (s s' : System) :
  Inv s ->
  terminated (pool s) = true ->
  step s s' ->
  launched s' = launched s
  /\ started s' = started s
  /\ exists more, queue (pool s') = queue (pool s) ++ more.
Proof.
  intros HI E [a H].
  assert (Hwc : forall p rs,
             terminated p = true -> queue p = queue (pool s) ->
             launched (wait_check p rs s) = launched s
             /\ started (wait_check p rs s) = started s
             /\ exists more,
                 queue (pool (wait_check p rs s)) = queue (pool s) ++ more).
  { intros p rs Ep Eq. unfold wait_check.
    rewrite (checkQueue_locked_terminated p Ep). simpl.
    rewrite app_nil_r, Eq. repeat split; auto.
    exists []. rewrite app_nil_r. reflexivity. }
  assert (Hsame : forall q : list Task, exists more, q = q ++ more)
    by (intros q; exists []; rewrite app_nil_r; reflexivity).
  destruct a; simpl in H.
  - destruct (inbox s) as [|t rest]; inversion H; subst; simpl.
    repeat split; auto. exists [t]. reflexivity.
  - unfold go_step in H.
    destruct (gos s !! i) as [g|] eqn:Hi; [|discriminate].
    destruct g; try destruct (chan_send _ _);
      inversion H; subst; simpl; auto.
    exfalso. destruct HI as [_ Hrun _ _ _ _ _ Ht _ _].
    destruct (Ht E) as (R0 & _).
    pose proof (tally_insert busy _ _ _ GDone Hi) as B. simpl in B. lia.
  - destruct (waiter s); inversion H; subst. apply Hwc; auto.
  - destruct (waiter s); try discriminate.
    destruct (chan_recv _) as [[v c]|]; inversion H; subst.
    apply Hwc; auto.
  - destruct (waiter s); try discriminate.
    destruct (chan_recv _) as [[v c]|]; inversion H; subst; simpl; auto.
  - destruct (waiter s); try discriminate.
    destruct (chan_recv _) as [[v c]|]; inversion H; subst; simpl; auto.
  - destruct (waiter s); inversion H; subst; simpl.
    destruct (attemptTermination_frame (pool s)) as (-> & _). auto.
Qed.

(** C10: on a pool whose flag is set, [checkQueue] changes nothing and
    launches nothing; so from a reachable state in which the flag is
    set, whatever happens next, no further task is launched and no
    further task body is entered: the tasks [Run] appends from then on
    stay in the queue. *)
Theorem checkQueue_noop_after_termination
  (n : Z) (p : Pool) (tasks : list Task) (s s' : System) :
  is_int n ->
  New n = Some p ->
  reachable (init p tasks) s ->
  terminated (pool s) = true ->
  reachable s s' ->
  (forall q, terminated q = true -> checkQueue q = (q, []))
  /\ terminated (pool s') = true
  /\ launched s' = launched s
  /\ started s' = started s
  /\ exists more, queue (pool s') = queue (pool s) ++ more.
Proof.
  intros Hn HN Hr E Hr'.
  pose proof (Inv_reachable _ _ (Inv_init n p tasks Hn HN) Hr) as HI.
  split.
  { intros q Eq. unfold checkQueue.
    rewrite (checkQueue_locked_terminated _ Eq). reflexivity. }
  clear Hr. induction Hr' as [x|x y z Hxy Hyz IH].
  - repeat split; auto. exists []. rewrite app_nil_r. reflexivity.
  - destruct (step_after_termination _ _ HI E Hxy) as (L & S & more & Q).
    assert (Ey : terminated (pool y) = true).
    { destruct (step_terminated _ _ Hxy) as [Eq|(rs & _ & ->)];
        [congruence | apply attemptTermination_sets]. }
    destruct (IH Ey (Inv_step _ _ HI Hxy)) as (T & L' & S' & more' & Q').
    repeat split; try congruence.
    exists (more ++ more'). rewrite Q', Q, app_assoc. reflexivity.
Qed.

Lemma checkQueue_noop_after_termination_witness :
  is_int 1
  /\ New 1 = Some (idle_pool 1 [])
  /\ exists s s',
      exec [AWait; ATerminate] (init (idle_pool 1 []) [task_ok 1]) = Some s
      /\ exec [ARun; AGo 0%nat; ARecvCheck] s = Some s'
      /\ terminated (pool s) = true
      /\ queue (pool s') = [task_ok 1]
      /\ (forall q, terminated q = true -> checkQueue q = (q, []))
      /\ terminated (pool s') = true
      /\ launched s' = launched s
      /\ started s' = started s
      /\ exists more, queue (pool s') = queue (pool s) ++ more.
Proof.
  assert (Hi : is_int 1) by (unfold is_int, int_min, int_max; lia).
  split; [exact Hi|]. split; [reflexivity|].
  eexists. eexists.
  split; [vm_compute; reflexivity|].
  split; [vm_compute; reflexivity|].
  split; [reflexivity|]. split; [reflexivity|].
  apply (checkQueue_noop_after_termination 1 (idle_pool 1 []) [task_ok 1]
           _ _ Hi eq_refl).
  - apply (exec_reachable [AWait; ATerminate]). vm_compute. reflexivity.
  - reflexivity.
  - apply (exec_reachable [ARun; AGo 0%nat; ARecvCheck]).
    vm_compute. reflexivity.
Defined.

(** ** [Wait] on a fresh pool *)

Lemma reachable_exec (s0 s : System) :
  reachable s0 s -> exists acts, exec acts s0 = Some s.
Proof.
  intros Hr. induction Hr as [x|x y z [a Hxy] Hyz [acts IH]].
  - exists []. reflexivity.
  - exists (a :: acts). simpl. rewrite Hxy. exact IH.
Qed.

(** The three states a fresh pool goes through when [Wait] is called
    and nothing was submitted. *)
Lemma fresh_wait_actions (p : Pool) :
  1 <= maxCount p <= int_max ->
  queue p = [] -> running p = 0 -> terminated p = false ->
  results p = make_chan 1 ->
  terminationChannel p = make_chan 1 ->
  runCheckChannel p = make_chan 1 ->
  forall a s,
    (do_action a (init p []) = Some s ->
     a = AWait /\ s = set_waiter (WTerminate []) (init p []))
    /\ (do_action a (set_waiter (WTerminate []) (init p [])) = Some s ->
        a = ATerminate
        /\ s = set_waiter (WSelect [])
                 (set_pool (attemptTermination p) (init p [])))
    /\ (do_action a (set_waiter (WSelect [])
                       (set_pool (attemptTermination p) (init p []))) = Some s ->
        a = ARecvTermination
        /\ waiter s = WReturned []
        /\ forall b, do_action b s = None).
Proof.
  intros Hm Hq Hr Ht Hres Htc Hrc a s.
  pose proof (checkQueue_locked_idle p Hm Ht Hq Hr) as Hidle.
  split; [|split].
  - destruct a; simpl; try discriminate.
    unfold wait_check. rewrite Hidle. simpl. intros H. inversion H. auto.
  - destruct a; simpl; try discriminate.
    intros H. inversion H. auto.
  - unfold attemptTermination. rewrite Ht.
    destruct a; simpl; rewrite ?Hres, ?Htc, ?Hrc; simpl; try discriminate.
    intros H. inversion H; subst; simpl. repeat split.
    intros b. destruct b; reflexivity.
Qed.

(** C8: on a fresh pool with nothing submitted, the only run of the
    program is: [Wait] is called and finds the pool idle, sets the flag
    and sends the termination signal, receives it, and returns the
    empty list.  Every schedule that can be run is a prefix of this
    one, so [Wait] never blocks and never returns anything else. *)
Theorem Wait_on_fresh_pool_returns_empty (n : Z) (p : Pool) :
  is_int n ->
  New n = Some p ->
  (exists s, exec [AWait; ATerminate; ARecvTermination] (init p []) = Some s
             /\ waiter s = WReturned [])
  /\ (forall acts s,
        exec acts (init p []) = Some s ->
        exists rest, acts ++ rest = [AWait; ATerminate; ARecvTermination])
  /\ (forall s rs,
        reachable (init p []) s -> waiter s = WReturned rs -> rs = []).
Proof.
  intros Hn HN.
  pose proof (Inv_init n p [] Hn HN) as [Hm _ _ _ _ _ _ _ _ _]. simpl in Hm.
  destruct (New_Some _ _ HN) as [Hp _].
  assert (Hact := fresh_wait_actions p Hm).
  do 6 (lapply Hact; [clear Hact; intros Hact | rewrite Hp; reflexivity]).
  assert (Hrun : forall acts s,
             exec acts (init p []) = Some s ->
             (exists rest, acts ++ rest = [AWait; ATerminate; ARecvTermination])
             /\ forall rs, waiter s = WReturned rs -> rs = []).
  { intros acts s H.
    destruct acts as [|a1 acts]; simpl in H.
    { inversion H; subst. split; [eexists; reflexivity|]. discriminate. }
    destruct (do_action a1 (init p [])) as [s1|] eqn:H1; [|discriminate].
    destruct (Hact a1 s1) as (A1 & _). destruct (A1 H1) as (-> & ->).
    destruct acts as [|a2 acts]; simpl in H.
    { inversion H; subst. split; [eexists; reflexivity|]. discriminate. }
    destruct (do_action a2 _) as [s2|] eqn:H2; [|discriminate].
    destruct (Hact a2 s2) as (_ & A2 & _). destruct (A2 H2) as (-> & ->).
    destruct acts as [|a3 acts]; simpl in H.
    { inversion H; subst. split; [eexists; reflexivity|]. discriminate. }
    destruct (do_action a3 _) as [s3|] eqn:H3; [|discriminate].
    destruct (Hact a3 s3) as (_ & _ & A3).
    destruct (A3 H3) as (-> & Hw & Hstuck).
    destruct acts as [|a4 acts]; simpl in H.
    { inversion H; subst. split; [exists []; reflexivity|].
      intros rs E. congruence. }
    rewrite Hstuck in H. discriminate. }
  split; [|split].
  - destruct (do_action AWait (init p [])) as [s1|] eqn:H1.
    2:{ exfalso. revert H1. simpl. discriminate. }
    destruct (Hact AWait s1) as (A1 & _). destruct (A1 H1) as (_ & ->).
    destruct (do_action ATerminate (set_waiter (WTerminate []) (init p [])))
      as [s2|] eqn:H2.
    2:{ exfalso. revert H2. simpl. discriminate. }
    destruct (Hact ATerminate s2) as (_ & A2 & _).
    destruct (A2 H2) as (_ & ->).
    destruct (do_action ARecvTermination
                (set_waiter (WSelect [])
                   (set_pool (attemptTermination p) (init p []))))
      as [s3|] eqn:H3.
    2:{ exfalso. revert H3. rewrite Hp. simpl. discriminate. }
    destruct (Hact ARecvTermination s3) as (_ & _ & A3).
    destruct (A3 H3) as (_ & Hw & _).
    exists s3. cbn [exec]. rewrite H1, H2, H3. auto.
  - intros acts s H. apply (Hrun acts s H).
  - intros s rs Hr Hw.
    assert (Hex : exists acts, exec acts (init p []) = Some s)
      by (apply reachable_exec; exact Hr).
    destruct Hex as [acts Hacts].
    destruct (Hrun acts s Hacts) as [_ Hrs]. eauto.
Qed.

Lemma Wait_on_fresh_pool_returns_empty_witness :
  is_int 0
  /\ New 0 = Some (idle_pool 1 [])
  /\ (exists s,
        exec [AWait; ATerminate; ARecvTermination] (init (idle_pool 1 []) [])
        = Some s
        /\ waiter s = WReturned [])
  /\ (forall acts s,
        exec acts (init (idle_pool 1 []) []) = Some s ->
        exists rest, acts ++ rest = [AWait; ATerminate; ARecvTermination])
  /\ (forall s rs,
        reachable (init (idle_pool 1 []) []) s ->
        waiter s = WReturned rs -> rs = []).
Proof.
  assert (Hi : is_int 0) by (unfold is_int, int_min, int_max; lia).
  split; [exact Hi|]. split; [reflexivity|].
  exact (Wait_on_fresh_pool_returns_empty 0 (idle_pool 1 []) Hi eq_refl).
Defined.

(** ** A result left behind *)

(** C1 fails on the code.  One task is submitted by a complete call of
    [Run] to a pool of limit one, then [Wait] is called.  The worker
    puts its result into the buffer of [p.results], decrements
    [running] and signals; the [select] of [Wait] takes the re-check
    signal before the result, finds the pool idle and terminates, and
    then takes the termination signal before the result: [Wait] returns
    the empty list and the result of the task stays in the channel. *)
Theorem Wait_can_drop_a_result :
  New 1 = Some (idle_pool 1 [])
  /\ lost_schedule
     = run_all (length [task_ok 1]) ++
       [AWait; AGo 1; AGo 1; AGo 1; AGo 1; AGo 1;
        ARecvCheck; ATerminate; ARecvTermination]%nat
  /\ exists s,
      exec lost_schedule (init (idle_pool 1 []) [task_ok 1]) = Some s
      /\ submitted s = [task_ok 1]
      /\ started s = [task_ok 1]
      /\ waiter s = WReturned []
      /\ buf (results (pool s)) = [{| Success := true; Err := None |}].
Proof.
  split; [reflexivity|]. split; [reflexivity|].
  eexists. split; [vm_compute; reflexivity|].
  repeat split; reflexivity.
Qed.

(** So "exactly K results" does not hold of every run in which the K
    tasks are submitted before [Wait] is called. *)
Lemma wait_returns_all_fails : ~ wait_returns_all.
Proof.
  intros H.
  assert (E : length (@nil TaskResult) = length [task_ok 1]); [|discriminate E].
  eapply (H 1 (idle_pool 1 []) [task_ok 1]
            [AGo 1; AGo 1; AGo 1; AGo 1; AGo 1;
             ARecvCheck; ATerminate; ARecvTermination]%nat).
  - reflexivity.
  - vm_compute. reflexivity.
  - reflexivity.
Qed.

(** ** What [Wait] does return *)

Lemma tally_unsent_le_busy (gs : list Goroutine) :
  (tally unsent gs <= tally busy gs)%nat.
Proof.
  unfold tally. induction gs as [|g gs IH]; simpl; [lia|].
  destruct g; simpl; lia.
Qed.

Lemma tally_unsent_spawned (ts : list Task) :
  tally unsent (map GSpawned ts) = length ts.
Proof.
  unfold tally. induction ts as [|t ts IH]; simpl; [reflexivity|].
  rewrite IH. reflexivity.
Qed.

Lemma InvCount_wait_check (p : Pool) (rs : list TaskResult) (s : System) :
  InvCount s ->
  results p = results (pool s) ->
  collected (waiter s) = rs ->
  InvCount (wait_check p rs s).
Proof.
  intros [Hc Hb] Er Ec. unfold wait_check.
  destruct (checkQueue_locked p) as [[p' ts] term] eqn:H.
  apply checkQueue_locked_frame in H. destruct H as (_ & _ & Fr & _).
  constructor; simpl; rewrite Fr, Er; [|exact Hb].
  rewrite length_app, tally_app, tally_unsent_spawned, Hc, Ec.
  destruct term; simpl; lia.
Qed.

Lemma InvCount_step (s s' : System) :
  Inv s -> InvCount s -> step s s' -> InvCount s'.
Proof.
  intros HI HC [a H]. destruct a; simpl in H.
  - destruct (inbox s) as [|t rest]; [discriminate|].
    inversion H; subst; clear H. destruct HC as [Hc Hb].
    constructor; simpl; [|exact Hb].
    rewrite tally_app. unfold tally at 2. simpl. lia.
  - unfold go_step in H. destruct HC as [Hc Hb].
    destruct (gos s !! i) as [g|] eqn:Hi; [|discriminate].
    destruct g.
    + inversion H; subst; clear H.
      pose proof (tally_insert unsent _ _ _ (GInTask t) Hi) as B.
      constructor; simpl in *; lia.
    + inversion H; subst; clear H.
      pose proof (tally_insert unsent _ _ _
                    (GSend (task_result (task_ret t))) Hi) as B.
      constructor; simpl in *; lia.
    + unfold chan_send in H.
      destruct (can_send (results (pool s))) eqn:Hs; [|discriminate].
      inversion H; subst; clear H.
      pose proof (tally_insert unsent _ _ _ GDecrement Hi) as B.
      unfold can_send in Hs. apply Nat.ltb_lt in Hs.
      destruct HI as [_ _ _ Hcr _ _ _ _ _ _]. rewrite Hcr in Hs.
      constructor; simpl in *; rewrite length_app; simpl; lia.
    + inversion H; subst; clear H.
      pose proof (tally_insert unsent _ _ _ GAttemptCheck Hi) as B.
      constructor; simpl in *; lia.
    + inversion H; subst; clear H.
      pose proof (tally_insert unsent _ _ _ GDone Hi) as B.
      constructor; simpl in *; lia.
    + discriminate.
  - destruct (waiter s) eqn:Hw; try discriminate.
    inversion H; subst; clear H.
    apply InvCount_wait_check; auto. rewrite Hw. reflexivity.
  - destruct (waiter s) eqn:Hw; try discriminate.
    destruct (chan_recv _) as [[v c]|]; [|discriminate].
    inversion H; subst; clear H.
    apply InvCount_wait_check; auto. rewrite Hw. reflexivity.
  - destruct (waiter s) eqn:Hw; try discriminate.
    destruct (chan_recv (results (pool s))) as [[v c]|] eqn:Hc;
      [|discriminate].
    inversion H; subst; clear H. apply chan_recv_Some in Hc.
    destruct Hc as (_ & Hbuf & _). destruct HC as [Hc Hb].
    rewrite Hw, Hbuf in *. simpl in *.
    constructor; simpl; rewrite ?length_app; simpl; lia.
  - destruct (waiter s) eqn:Hw; try discriminate.
    destruct (chan_recv _) as [[v c]|]; [|discriminate].
    inversion H; subst; clear H. destruct HC as [Hc Hb].
    rewrite Hw in *. constructor; simpl in *; lia.
  - destruct (waiter s) eqn:Hw; try discriminate.
    inversion H; subst; clear H. destruct HC as [Hc Hb].
    destruct (attemptTermination_frame (pool s)) as (_ & _ & _ & Fr & _).
    rewrite Hw in *. constructor; simpl in *; rewrite Fr; lia.
Qed.

Lemma InvDrain_wait_check (p : Pool) (rs : list TaskResult) (s : System) :
  Inv s -> InvDrain s ->
  maxCount p = maxCount (pool s) ->
  running p = running (pool s) ->
  queue p = queue (pool s) ->
  terminated p = terminated (pool s) ->
  InvDrain (wait_check p rs s).
Proof.
  intros HI [Hin Hq] Em Er Eq Et.
  assert (Hok : pool_fields_ok p).
  { apply Inv_fields_ok in HI. unfold pool_fields_ok in *.
    rewrite Em, Er. exact HI. }
  unfold wait_check.
  destruct (checkQueue_locked p) as [[p' ts] term] eqn:H.
  pose proof (checkQueue_locked_count _ _ _ _ H Hok) as (_ & _ & Ct & _).
  constructor; simpl; [exact Hin|].
  intros [(rs' & Hw)|E].
  - destruct term; [|discriminate].
    destruct Ct as (-> & _ & Q & _); auto.
  - apply checkQueue_locked_frame in H.
    destruct H as (Fq & _ & _ & Ft & _).
    rewrite Ft, Et in E. specialize (Hq (or_intror E)).
    rewrite Eq, Hq in Fq. symmetry in Fq. apply app_eq_nil in Fq. tauto.
Qed.

Lemma InvDrain_step (s s' : System) :
  Inv s -> InvDrain s -> step s s' -> InvDrain s'.
Proof.
  intros HI HD [a H]. destruct a; simpl in H.
  - destruct HD as [Hin _]. rewrite Hin in H. discriminate.
  - unfold go_step in H. destruct HD as [Hin Hq].
    destruct (gos s !! i) as [g|]; [|discriminate].
    destruct g; try destruct (chan_send _ _);
      inversion H; subst; clear H; constructor; simpl; auto.
  - destruct (waiter s); try discriminate.
    inversion H; subst; clear H. apply InvDrain_wait_check; auto.
  - destruct (waiter s); try discriminate.
    destruct (chan_recv _) as [[v c]|]; [|discriminate].
    inversion H; subst; clear H. apply InvDrain_wait_check; auto.
  - destruct (waiter s) eqn:Hw; try discriminate.
    destruct (chan_recv _) as [[v c]|]; [|discriminate].
    inversion H; subst; clear H. destruct HD as [Hin Hq].
    constructor; simpl; [exact Hin|].
    intros [(rs' & E)|E]; [discriminate|auto].
  - destruct (waiter s) eqn:Hw; try discriminate.
    destruct (chan_recv _) as [[v c]|]; [|discriminate].
    inversion H; subst; clear H. destruct HD as [Hin Hq].
    constructor; simpl; [exact Hin|].
    intros [(rs' & E)|E]; [discriminate|auto].
  - destruct (waiter s) eqn:Hw; try discriminate.
    inversion H; subst; clear H. destruct HD as [Hin Hq].
    destruct (attemptTermination_frame (pool s)) as (Fq & _).
    constructor; simpl; [exact Hin|]. rewrite Fq. intros _. eauto.
Qed.

Lemma exec_app (a b : list Action) :
  forall s s',
    exec (a ++ b) s = Some s' ->
    exists mid, exec a s = Some mid /\ exec b mid = Some s'.
Proof.
  induction a as [|x a IH]; intros s s' H; simpl in *.
  - eauto.
  - destruct (do_action x s) as [s1|]; [|discriminate]. apply IH. exact H.
Qed.

Lemma do_action_pushes (a : Action) (s s' : System) :
  do_action a s = Some s' ->
  (length (inbox s') + pushes [a] = length (inbox s))%nat.
Proof.
  intros H. destruct a; simpl in *.
  - destruct (inbox s) as [|t rest]; inversion H; subst; simpl. lia.
  - unfold go_step in H. destruct (gos s !! i) as [g|]; [|discriminate].
    destruct g; try destruct (chan_send _ _); inversion H; simpl; lia.
  - destruct (waiter s); inversion H. unfold wait_check.
    destruct (checkQueue_locked _) as [[? ?] ?]. simpl. lia.
  - destruct (waiter s); try discriminate.
    destruct (chan_recv _) as [[v c]|]; inversion H. unfold wait_check.
    destruct (checkQueue_locked _) as [[? ?] ?]. simpl. lia.
  - destruct (waiter s); try discriminate.
    destruct (chan_recv _) as [[v c]|]; inversion H. simpl. lia.
  - destruct (waiter s); try discriminate.
    destruct (chan_recv _) as [[v c]|]; inversion H. simpl. lia.
  - destruct (waiter s); inversion H. simpl. lia.
Qed.

Lemma exec_pushes (acts : list Action) :
  forall s s',
    exec acts s = Some s' ->
    (length (inbox s') + pushes acts = length (inbox s))%nat.
Proof.
  induction acts as [|a acts IH]; intros s s' H; simpl in H.
  - inversion H. simpl. lia.
  - destruct (do_action a s) as [s1|] eqn:Ha; [|discriminate].
    apply do_action_pushes in Ha. apply IH in H.
    destruct a; simpl in *; lia.
Qed.

Lemma pushes_run_all (k : nat) : pushes (run_all k) = k.
Proof.
  unfold run_all. generalize 0%nat.
  induction k as [|k IH]; intros j; simpl; [reflexivity|].
  rewrite IH. reflexivity.
Qed.

(** When all [K] tasks are submitted by complete calls of [Run] before
    [Wait] is called, [Wait] returns every result except the one, if
    any, that is in the buffer of [p.results] at that moment: [K] or
    [K - 1] results. *)
Lemma Wait_returns_all_but_buffered
  (n : Z) (p : Pool) (tasks : list Task) (acts : list Action)
  (s : System) (rs : list TaskResult) :
  is_int n ->
  New n = Some p ->
  exec (run_all (length tasks) ++ AWait :: acts) (init p tasks) = Some s ->
  waiter s = WReturned rs ->
  (length rs + length (buf (results (pool s))) = length tasks)%nat
  /\ (length (buf (results (pool s))) <= 1)%nat.
Proof.
  intros Hn HN H Hw.
  destruct (exec_app _ _ _ _ H) as (mid & Hpre & Hpost).
  pose proof (Inv_init n p tasks Hn HN) as HI0.
  destruct (New_Some _ _ HN) as [Hp _].
  assert (HF0 : InvFifo (init p tasks))
    by (rewrite Hp; constructor; reflexivity).
  assert (HC0 : InvCount (init p tasks))
    by (rewrite Hp; constructor; simpl; lia).
  pose proof (exec_reachable _ _ _ Hpre) as Rpre.
  pose proof (exec_reachable _ _ _ Hpost) as Rpost.
  pose proof (Inv_reachable _ _ HI0 Rpre) as HIm.
  assert (HDm : InvDrain mid).
  { pose proof (exec_pushes _ _ _ Hpre) as Hlen.
    rewrite pushes_run_all in Hlen. simpl in Hlen.
    assert (Hin : inbox mid = [])
      by (destruct (inbox mid); [reflexivity | simpl in Hlen; lia]).
    simpl in Hpost.
    destruct (waiter mid) eqn:Hwm; try discriminate.
    constructor; [exact Hin|].
    intros [(rs' & E)|E]; [congruence|].
    destruct HIm as [_ _ _ _ _ _ _ Ht _ _].
    destruct (Ht E) as (_ & _ & _ & Hnc & _). contradiction. }
  assert (Hall : Inv s /\ InvFifo s /\ InvCount s /\ InvDrain s).
  { assert (HFm : InvFifo mid)
      by exact (InvFifo_reachable _ _ HI0 HF0 Rpre).
    assert (HCm : InvCount mid).
    { clear - HI0 HC0 Rpre. induction Rpre as [|x y z Hxy Hyz IH]; [auto|].
      apply IH; [eapply Inv_step | eapply InvCount_step]; eauto. }
    clear - HIm HFm HCm HDm Rpost.
    induction Rpost as [|x y z Hxy Hyz IH]; [auto|].
    apply IH;
      [eapply Inv_step | eapply InvDrain_step | eapply InvFifo_step
      |eapply InvCount_step]; eauto. }
  destruct Hall as (HI & [Hq _] & [Hc Hb] & [Hin Hdq]).
  split; [|exact Hb].
  assert (E : terminated (pool s) = true).
  { destruct (terminated (pool s)) eqn:E; [reflexivity|].
    destruct HI as [_ _ _ _ _ _ Hnt _ _ _].
    destruct (Hnt E) as (_ & _ & Hnr). exfalso. eapply Hnr; eauto. }
  pose proof (tally_unsent_le_busy (gos s)) as Hle.
  destruct HI as [_ Hrun _ _ _ _ _ Ht _ _].
  destruct (Ht E) as (R0 & _).
  pose proof (reachable_submitted _ _ (rtc_trans _ _ _ Rpre Rpost)) as Hsub.
  simpl in Hsub. rewrite Hin, app_nil_r, Hq, (Hdq (or_intror E)), app_nil_r in Hsub.
  rewrite Hw in Hc. simpl in Hc. rewrite <- Hsub. lia.
Qed.

(** ** [Run] as two actions *)

(** A call of [Run] that nothing interrupts is the push followed by the
    [attemptCheck] of the caller, and does to the pool what [Run] does. *)
Lemma Run_actions (s : System) (t : Task) (rest : list Task) :
  inbox s = t :: rest ->
  exists s',
    exec [ARun; AGo (length (gos s))] s = Some s'
    /\ pool s' = Run t (pool s)
    /\ inbox s' = rest
    /\ gos s' = gos s ++ [GDone].
Proof.
  intros Hin. cbn [exec do_action]. rewrite Hin.
  unfold go_step. cbn [gos pool].
  rewrite (list_lookup_middle (gos s) [] GAttemptCheck (length (gos s)) eq_refl).
  eexists. split; [reflexivity|]. simpl. repeat split.
  rewrite (insert_app_r_alt (gos s) [GAttemptCheck] (length (gos s)))
    by reflexivity.
  rewrite Nat.sub_diag. reflexivity.
Qed.

(** * Further properties of the code *)

(** ** When [New] fails *)

(** X1: for an [int] argument [n], [New] fails to return a pool, by
    the panic of [makeslice] or for want of memory, exactly when the
    [2 * max n 1] slots of eight bytes of its queue exceed [maxAlloc]
    ([2^48] bytes) or what the allocator can grant.  So it fails for
    every [n] above [2^44], which includes the [n] from [2^62] on whose
    capacity wraps to a negative number. *)
Theorem New_fails_iff (avail n : Z) :
  is_int n ->
  (New_in avail n = None
   <-> Z.min avail max_alloc < 2 * (if n <=? 0 then 1 else n) * func_size).
Proof.
  intros [Hlo Hhi]. unfold New_in.
  set (m := if n <=? 0 then 1 else n).
  assert (Hm : 1 <= m <= int_max).
  { subst m. unfold int_max in *.
    destruct (n <=? 0) eqn:Hle; [lia|]. apply Z.leb_gt in Hle. lia. }
  destruct (make_queue_spec avail (wrap (m * 2))) as [Hyes Hno].
  unfold int_max, func_size, max_alloc in *.
  destruct (Z_lt_le_dec m (2 ^ 62)) as [Hlt|Hge].
  - rewrite wrap_id in * by (unfold int_min, int_max; lia).
    destruct (Z_le_dec (m * 2 * 8) (Z.min avail (2 ^ 48))) as [H1|H1].
    + rewrite Hyes by lia. split; [discriminate|lia].
    + rewrite Hno by lia. split; [lia|reflexivity].
  - assert (Hw : wrap (m * 2) = m * 2 - 2 ^ 64).
    { unfold wrap.
      replace (m * 2 + 2 ^ 63) with ((m * 2 - 2 ^ 63) + 1 * 2 ^ 64) by lia.
      rewrite Z.mod_add, Z.mod_small; lia. }
    rewrite Hw in *. rewrite Hno by lia. split; [lia|reflexivity].
Qed.

Lemma New_fails_iff_witness :
  is_int (2 ^ 44 + 1)
  /\ New_in (2 ^ 60) (2 ^ 44 + 1) = None
  /\ (New_in (2 ^ 60) (2 ^ 44 + 1) = None
      <-> Z.min (2 ^ 60) max_alloc
          < 2 * (if 2 ^ 44 + 1 <=? 0 then 1 else 2 ^ 44 + 1) * func_size).
Proof.
  assert (Hi : is_int (2 ^ 44 + 1))
    by (unfold is_int, int_min, int_max; lia).
  split; [exact Hi|]. split; [reflexivity|].
  exact (New_fails_iff (2 ^ 60) (2 ^ 44 + 1) Hi).
Defined.

(** ** When [checkQueue] terminates the pool *)

(** X2: on a pool that has not terminated, one call of [checkQueue]
    sets the flag exactly when the queue is empty and nothing is
    running; it then launches nothing and does what
    [attemptTermination] does.  In every other case the flag stays
    unset and the termination channel is left alone. *)
Theorem checkQueue_terminates_iff_idle (p : Pool) :
  pool_fields_ok p ->
  terminated p = false ->
  (queue p = [] /\ running p = 0 ->
   checkQueue p = (attemptTermination p, [])
   /\ terminated (fst (checkQueue p)) = true)
  /\ (~ (queue p = [] /\ running p = 0) ->
      terminated (fst (checkQueue p)) = false
      /\ terminationChannel (fst (checkQueue p)) = terminationChannel p).
Proof.
  intros Hok Ht. split.
  - intros [Hq Hr]. unfold checkQueue.
    rewrite (checkQueue_locked_idle p (proj1 Hok) Ht Hq Hr). simpl.
    split; [reflexivity | apply attemptTermination_sets].
  - intros Hn. unfold checkQueue.
    destruct (checkQueue_locked p) as [[p' ts] term] eqn:H.
    pose proof (checkQueue_locked_frame _ _ _ _ H) as (_ & _ & _ & Ft & Ftc & _).
    pose proof (checkQueue_locked_count _ _ _ _ H Hok) as (_ & _ & Ct & _).
    destruct term.
    + exfalso. destruct Ct as (_ & _ & Hq & Hr & _); auto.
    + simpl. rewrite Ft, Ftc. auto.
Qed.

Lemma checkQueue_terminates_iff_idle_witness :
  pool_fields_ok (idle_pool 2 [])
  /\ checkQueue (idle_pool 2 []) = (attemptTermination (idle_pool 2 []), [])
  /\ terminated (fst (checkQueue (idle_pool 2 []))) = true.
Proof.
  assert (Hok : pool_fields_ok (idle_pool 2 []))
    by (unfold pool_fields_ok, int_max; simpl; lia).
  split; [exact Hok|].
  apply (checkQueue_terminates_iff_idle _ Hok eq_refl). split; reflexivity.
Defined.

(** ** [Run] followed by [checkQueue] *)

(** X3: when a task is submitted to a pool that has not terminated,
    has an empty queue and a free slot, the next [checkQueue] launches
    exactly that task: the queue is empty again, [running] is one
    higher, the flag is still unset, and the re-check signal of [Run] is
    in the channel. *)
Theorem Run_then_checkQueue (t : Task) (p : Pool) :
  pool_fields_ok p ->
  cap (runCheckChannel p) = 1%nat ->
  terminated p = false ->
  queue p = [] ->
  running p < maxCount p ->
  snd (checkQueue (Run t p)) = [t]
  /\ queue (fst (checkQueue (Run t p))) = []
  /\ running (fst (checkQueue (Run t p))) = running p + 1
  /\ terminated (fst (checkQueue (Run t p))) = false
  /\ buf (runCheckChannel (fst (checkQueue (Run t p)))) <> [].
Proof.
  intros Hok Hcap Ht Hq Hr.
  assert (Hok' : pool_fields_ok (Run t p)) by exact Hok.
  assert (Ht' : terminated (Run t p) = false) by exact Ht.
  assert (Hq' : queue (Run t p) = [t])
    by (change (queue p ++ [t] = [t]); rewrite Hq; reflexivity).
  assert (Ha : 0 < maxCount (Run t p) - running (Run t p))
    by (change (0 < maxCount p - running p); lia).
  unfold checkQueue.
  destruct (checkQueue_locked (Run t p)) as [[p' ts] term] eqn:H.
  pose proof (checkQueue_locked_frame _ _ _ _ H)
    as (Fq & _ & _ & Ft & _ & Frc).
  pose proof (checkQueue_locked_count _ _ _ _ H Hok') as (Cr & _ & Ct & _).
  pose proof (checkQueue_locked_prefix _ _ _ _ H Hok' Ht' Ha) as Hlen.
  rewrite Hq' in Hlen, Fq. cbn [length] in Hlen.
  assert (Hone : length ts = 1%nat) by lia.
  destruct ts as [|t' [|t'' ts]]; try discriminate Hone.
  simpl in Fq. inversion Fq; subst t'.
  assert (term = false) as ->.
  { destruct term; [|reflexivity].
    destruct Ct as (_ & E & _); [reflexivity|discriminate E]. }
  simpl. simpl in Cr. repeat split; auto.
  - congruence.
  - rewrite Frc. simpl. apply try_send_nonempty. exact Hcap.
Qed.

Lemma Run_then_checkQueue_witness :
  pool_fields_ok (idle_pool 2 [])
  /\ running (idle_pool 2 []) < maxCount (idle_pool 2 [])
  /\ snd (checkQueue (Run (task_ok 7) (idle_pool 2 []))) = [task_ok 7]
  /\ queue (fst (checkQueue (Run (task_ok 7) (idle_pool 2 [])))) = []
  /\ running (fst (checkQueue (Run (task_ok 7) (idle_pool 2 [])))) = 0 + 1
  /\ terminated (fst (checkQueue (Run (task_ok 7) (idle_pool 2 [])))) = false
  /\ buf (runCheckChannel (fst (checkQueue (Run (task_ok 7) (idle_pool 2 [])))))
     <> [].
Proof.
  assert (Hok : pool_fields_ok (idle_pool 2 []))
    by (unfold pool_fields_ok, int_max; simpl; lia).
  split; [exact Hok|]. split; [reflexivity|].
  exact (Run_then_checkQueue (task_ok 7) (idle_pool 2 []) Hok
           eq_refl eq_refl eq_refl eq_refl).
Defined.

(** ** Results come back in the order they were sent *)

Lemma wait_check_results (p : Pool) (rs : list TaskResult) (s : System) :
  collected (waiter (wait_check p rs s)) = rs
  /\ results (pool (wait_check p rs s)) = results p.
Proof.
  unfold wait_check.
  destruct (checkQueue_locked p) as [[p' ts] term] eqn:H.
  apply checkQueue_locked_frame in H. simpl.
  split; [destruct term; reflexivity | tauto].
Qed.

Lemma do_action_delivers (a : Action) (s s' : System) :
  do_action a s = Some s' ->
  collected (waiter s') ++ buf (results (pool s'))
  = collected (waiter s) ++ buf (results (pool s)) ++ sent_by a s.
Proof.
  intros H. destruct a; simpl in H.
  - destruct (inbox s); inversion H; subst; simpl.
    rewrite app_nil_r. reflexivity.
  - unfold go_step in H. unfold sent_by.
    destruct (gos s !! i) as [g|]; [|discriminate].
    destruct g; try (inversion H; subst; simpl; rewrite app_nil_r; reflexivity).
    unfold chan_send in H.
    destruct (can_send (results (pool s))); inversion H; subst; simpl.
    reflexivity.
  - destruct (waiter s) eqn:Hw; inversion H; subst.
    destruct (wait_check_results (pool s) [] s) as [-> ->].
    simpl. rewrite app_nil_r. reflexivity.
  - destruct (waiter s) eqn:Hw; try discriminate.
    destruct (chan_recv _) as [[v c]|]; inversion H; subst.
    destruct (wait_check_results (set_runCheckChannel c (pool s)) rs s)
      as [-> ->].
    simpl. rewrite app_nil_r. reflexivity.
  - destruct (waiter s) eqn:Hw; try discriminate.
    destruct (chan_recv (results (pool s))) as [[v c]|] eqn:Hc;
      inversion H; subst.
    apply chan_recv_Some in Hc. destruct Hc as (_ & -> & _). simpl.
    rewrite app_nil_r, <- app_assoc. reflexivity.
  - destruct (waiter s) eqn:Hw; try discriminate.
    destruct (chan_recv _) as [[v c]|]; inversion H; subst. simpl.
    rewrite app_nil_r. reflexivity.
  - destruct (waiter s) eqn:Hw; inversion H; subst. simpl.
    destruct (attemptTermination_frame (pool s)) as (_ & _ & _ & -> & _).
    rewrite app_nil_r. reflexivity.
Qed.

Lemma exec_delivers (acts : list Action) :
  forall s s',
    exec acts s = Some s' ->
    collected (waiter s') ++ buf (results (pool s'))
    = collected (waiter s) ++ buf (results (pool s)) ++ deliveries acts s.
Proof.
  induction acts as [|a acts IH]; intros s s' H; simpl in *.
  - inversion H; subst. rewrite app_nil_r. reflexivity.
  - destruct (do_action a s) as [s1|] eqn:Ha; [|discriminate].
    rewrite (IH _ _ H), app_assoc, (do_action_delivers _ _ _ Ha).
    rewrite <- !app_assoc. reflexivity.
Qed.

Lemma InvCount_reachable (s0 s : System) :
  Inv s0 -> InvCount s0 -> reachable s0 s -> InvCount s.
Proof.
  intros HI HC Hr. induction Hr as [|x y z Hxy Hyz IH]; [exact HC|].
  apply IH; [eapply Inv_step | eapply InvCount_step]; eauto.
Qed.

Lemma InvCount_init (n : Z) (p : Pool) (tasks : list Task) :
  New n = Some p -> InvCount (init p tasks).
Proof.
  intros HN. destruct (New_Some _ _ HN) as [-> _].
  constructor; simpl; lia.
Qed.

(** X4: along every run, what [Wait] has collected, followed by what
    is in the buffer of [p.results], is the sequence of results in the
    order the workers sent them.  So the slice [Wait] returns lists the
    results in completion order, and lacks at most the last one sent. *)
Theorem Wait_returns_in_delivery_order
  (n : Z) (p : Pool) (tasks : list Task) (acts : list Action) (s : System) :
  is_int n ->
  New n = Some p ->
  exec acts (init p tasks) = Some s ->
  collected (waiter s) ++ buf (results (pool s))
  = deliveries acts (init p tasks)
  /\ forall rs,
      waiter s = WReturned rs ->
      exists rest,
        deliveries acts (init p tasks) = rs ++ rest
        /\ (length rest <= 1)%nat.
Proof.
  intros Hn HN H.
  pose proof (exec_delivers _ _ _ H) as Hd.
  assert (Hb : buf (results p) = [])
    by (destruct (New_Some _ _ HN) as [-> _]; reflexivity).
  simpl in Hd. rewrite Hb in Hd. simpl in Hd.
  split; [exact Hd|].
  intros rs Hw. rewrite Hw in Hd. simpl in Hd.
  exists (buf (results (pool s))). split; [symmetry; exact Hd|].
  pose proof (InvCount_reachable _ _ (Inv_init n p tasks Hn HN)
                (InvCount_init n p tasks HN) (exec_reachable _ _ _ H))
    as [_ Hbuf].
  exact Hbuf.
Qed.

Lemma Wait_returns_in_delivery_order_witness :
  is_int 2
  /\ New 2 = Some (idle_pool 2 [])
  /\ exists s,
      exec overtaking_schedule (init (idle_pool 2 []) demo_tasks) = Some s
      /\ deliveries overtaking_schedule (init (idle_pool 2 []) demo_tasks)
         = [task_result (Some "boom"%string); task_result None]
      /\ collected (waiter s) ++ buf (results (pool s))
         = deliveries overtaking_schedule (init (idle_pool 2 []) demo_tasks).
Proof.
  assert (Hi : is_int 2) by (unfold is_int, int_min, int_max; lia).
  split; [exact Hi|]. split; [reflexivity|].
  eexists. split; [vm_compute; reflexivity|].
  split; [vm_compute; reflexivity|].
  apply (Wait_returns_in_delivery_order 2 (idle_pool 2 []) demo_tasks
           overtaking_schedule _ Hi eq_refl).
  vm_compute. reflexivity.
Defined.

(** ** Every task and every result is in one place *)

Lemma flat_map_insert_perm {B : Type} (f : Goroutine -> list B)
  (gs : list Goroutine) :
  forall i x y,
    gs !! i = Some x ->
    flat_map f (<[i := y]> gs) ++ f x ≡ₚ flat_map f gs ++ f y.
Proof.
  induction gs as [|h gs IH]; intros i x y Hi; [discriminate|].
  destruct i as [|i]; simpl in *.
  - inversion Hi; subst. solve_Permutation.
  - rewrite <- !app_assoc. rewrite (IH i x y Hi). reflexivity.
Qed.

Lemma pending_results_app (a b : list Goroutine) :
  pending_results (a ++ b) = pending_results a ++ pending_results b.
Proof. unfold pending_results. apply flat_map_app. Qed.

Lemma pending_results_spawned (ts : list Task) :
  pending_results (map GSpawned ts) = [].
Proof.
  unfold pending_results. induction ts as [|t ts IH]; simpl; auto.
Qed.

Lemma results_of_app (a b : list Task) :
  results_of (a ++ b) = results_of a ++ results_of b.
Proof. unfold results_of. apply map_app. Qed.

Lemma InvBooks_wait_check (p : Pool) (rs : list TaskResult) (s : System) :
  InvBooks s ->
  results p = results (pool s) ->
  collected (waiter s) = rs ->
  InvBooks (wait_check p rs s).
Proof.
  intros [Ht Hr] Er Ec.
  destruct (wait_check_results p rs s) as [Hc Hres].
  constructor; rewrite ?Hc, ?Hres, ?Er.
  - unfold wait_check.
    destruct (checkQueue_locked p) as [[p' ts] term]. simpl.
    rewrite spawned_app, spawned_map, app_assoc, Ht. reflexivity.
  - rewrite <- Ec.
    unfold wait_check.
    destruct (checkQueue_locked p) as [[p' ts] term]. simpl.
    rewrite pending_results_app, pending_results_spawned, app_nil_r.
    exact Hr.
Qed.

Lemma InvBooks_go_step (i : nat) (s s' : System) :
  InvBooks s -> go_step i s = Some s' -> InvBooks s'.
Proof.
  intros [Ht Hr] H. unfold go_step in H.
  destruct (gos s !! i) as [g|] eqn:Hi; [|discriminate].
  pose proof (fun y => flat_map_insert_perm
                (fun g => match g with GSpawned t => [t] | _ => [] end)
                (gos s) i g y Hi) as Ps.
  pose proof (fun y => flat_map_insert_perm
                (fun g => match g with
                          | GInTask t => [task_result (task_ret t)]
                          | GSend r => [r]
                          | _ => []
                          end)
                (gos s) i g y Hi) as Pr.
  fold spawned in Ps. fold pending_results in Pr.
  destruct g.
  - inversion H; subst; clear H.
    specialize (Ps (GInTask t)). specialize (Pr (GInTask t)).
    simpl in Ps, Pr. rewrite app_nil_r in Ps, Pr.
    constructor; simpl.
    + rewrite <- Ht, <- Ps. solve_Permutation.
    + rewrite results_of_app, <- Hr, Pr. simpl. solve_Permutation.
  - inversion H; subst; clear H.
    specialize (Ps (GSend (task_result (task_ret t)))).
    specialize (Pr (GSend (task_result (task_ret t)))).
    simpl in Ps, Pr. rewrite !app_nil_r in Ps.
    apply Permutation_app_inv_r in Pr.
    constructor; simpl; [rewrite Ps; exact Ht | rewrite Pr; exact Hr].
  - destruct (chan_send (results (pool s)) r) as [c|] eqn:Hc; [|discriminate].
    inversion H; subst; clear H. apply chan_send_Some in Hc.
    destruct Hc as (_ & Hb & _).
    specialize (Ps GDecrement). specialize (Pr GDecrement).
    simpl in Ps, Pr. rewrite !app_nil_r in Ps. rewrite app_nil_r in Pr.
    constructor; simpl; [rewrite Ps; exact Ht|].
    rewrite Hb, <- Hr, <- Pr. solve_Permutation.
  - inversion H; subst; clear H.
    specialize (Ps GAttemptCheck). specialize (Pr GAttemptCheck).
    simpl in Ps, Pr. rewrite !app_nil_r in Ps, Pr.
    constructor; simpl; [rewrite Ps; exact Ht | rewrite Pr; exact Hr].
  - inversion H; subst; clear H.
    specialize (Ps GDone). specialize (Pr GDone).
    simpl in Ps, Pr. rewrite !app_nil_r in Ps, Pr.
    constructor; simpl; [rewrite Ps; exact Ht | rewrite Pr; exact Hr].
  - discriminate.
Qed.

Lemma InvBooks_step (s s' : System) : InvBooks s -> step s s' -> InvBooks s'.
Proof.
  intros HB [a H]. destruct a; simpl in H.
  - destruct (inbox s) as [|t rest]; [discriminate|].
    inversion H; subst; clear H. destruct HB as [Ht Hr].
    constructor; simpl.
    + rewrite spawned_app. simpl. rewrite app_nil_r. exact Ht.
    + rewrite pending_results_app. simpl. rewrite app_nil_r. exact Hr.
  - eapply InvBooks_go_step; eauto.
  - destruct (waiter s) eqn:Hw; try discriminate.
    inversion H; subst; clear H.
    apply InvBooks_wait_check; auto. rewrite Hw. reflexivity.
  - destruct (waiter s) eqn:Hw; try discriminate.
    destruct (chan_recv _) as [[v c]|]; [|discriminate].
    inversion H; subst; clear H.
    apply InvBooks_wait_check; auto. rewrite Hw. reflexivity.
  - destruct (waiter s) eqn:Hw; try discriminate.
    destruct (chan_recv (results (pool s))) as [[v c]|] eqn:Hc;
      [|discriminate].
    inversion H; subst; clear H. apply chan_recv_Some in Hc.
    destruct Hc as (_ & Hb & _). destruct HB as [Ht Hr].
    rewrite Hw, Hb in Hr. simpl in Hr.
    constructor; simpl; [exact Ht|].
    rewrite <- Hr. solve_Permutation.
  - destruct (waiter s) eqn:Hw; try discriminate.
    destruct (chan_recv _) as [[v c]|]; [|discriminate].
    inversion H; subst; clear H. destruct HB as [Ht Hr].
    rewrite Hw in Hr. constructor; simpl; [exact Ht | exact Hr].
  - destruct (waiter s) eqn:Hw; try discriminate.
    inversion H; subst; clear H. destruct HB as [Ht Hr].
    destruct (attemptTermination_frame (pool s)) as (_ & _ & _ & Fr & _).
    rewrite Hw in Hr. constructor; simpl; [exact Ht|].
    rewrite Fr. exact Hr.
Qed.

Lemma InvBooks_init (n : Z) (p : Pool) (tasks : list Task) :
  New n = Some p -> InvBooks (init p tasks).
Proof.
  intros HN. destruct (New_Some _ _ HN) as [-> _].
  constructor; reflexivity.
Qed.

Lemma InvBooks_reachable (s0 s : System) :
  InvBooks s0 -> reachable s0 s -> InvBooks s.
Proof.
  intros H0 Hr. induction Hr as [|x y z Hxy Hyz IH]; [exact H0|].
  apply IH. eapply InvBooks_step; eauto.
Qed.

Lemma InvFifo_init (n : Z) (p : Pool) (tasks : list Task) :
  New n = Some p -> InvFifo (init p tasks).
Proof.
  intros HN. destruct (New_Some _ _ HN) as [-> _].
  constructor; reflexivity.
Qed.

(** ** Outcome fidelity *)

Lemma task_result_iff (err : error) :
  Err (task_result err) = None <-> Success (task_result err) = true.
Proof. destruct err; simpl; split; intros; congruence. Qed.

Lemma elem_of_results_of (r : TaskResult) (ts : list Task) :
  r ∈ results_of ts <-> exists t, t ∈ ts /\ r = task_result (task_ret t).
Proof.
  unfold results_of. rewrite list_elem_of_In, in_map_iff. split.
  - intros (t & E & Ht). exists t. rewrite list_elem_of_In. auto.
  - intros (t & Ht & E). exists t. rewrite <- list_elem_of_In. auto.
Qed.

(** C3: in every reachable state the results there are (collected by
    [Wait], in the buffer of [p.results], held by the workers) are, one
    for one, the results of the tasks whose body has been entered.  So
    each entered task, which is one of the submitted tasks, has its
    result there: [{Success: true, Err: nil}] if its body returns [nil]
    and [{Success: false, Err: E}] if it returns the error [E]; every
    result there is that of an entered task, and its [Err] is [nil]
    exactly when its [Success] is [true]. *)
Theorem outcome_fidelity (n : Z) (p : Pool) (tasks : list Task) (s : System) :
  is_int n ->
  New n = Some p ->
  reachable (init p tasks) s ->
  held_results s ≡ₚ results_of (started s)
  /\ (forall t, t ∈ started s ->
        t ∈ tasks
        /\ (task_ret t = None ->
            {| Success := true; Err := None |} ∈ held_results s)
        /\ (forall e, task_ret t = Some e ->
              {| Success := false; Err := Some e |} ∈ held_results s))
  /\ (forall r, r ∈ held_results s ->
        (exists t, t ∈ started s /\ r = task_result (task_ret t))
        /\ (Err r = None <-> Success r = true)).
Proof.
  intros Hn HN Hr.
  pose proof (InvBooks_reachable _ _ (InvBooks_init n p tasks HN) Hr)
    as [Ht Hres].
  pose proof (InvFifo_reachable _ _ (Inv_init n p tasks Hn HN)
                (InvFifo_init n p tasks HN) Hr) as [Hq _].
  pose proof (reachable_submitted _ _ Hr) as Hsub. simpl in Hsub.
  fold (held_results s) in Hres.
  split; [exact Hres|]. split.
  - intros t Hin.
    assert (Hheld : task_result (task_ret t) ∈ held_results s).
    { rewrite Hres. apply elem_of_results_of. eauto. }
    split; [|split].
    + rewrite <- Hsub, Hq, <- Ht.
      apply elem_of_app. left. apply elem_of_app. left.
      apply elem_of_app. left. exact Hin.
    + intros E. rewrite E in Hheld. exact Hheld.
    + intros e E. rewrite E in Hheld. exact Hheld.
  - intros r Hin. rewrite Hres in Hin. apply elem_of_results_of in Hin.
    destruct Hin as (t & Hin & ->).
    split; [eauto | apply task_result_iff].
Qed.

Lemma outcome_fidelity_witness :
  is_int 2
  /\ New 2 = Some (idle_pool 2 [])
  /\ exists s,
      exec overtaking_schedule (init (idle_pool 2 []) demo_tasks) = Some s
      /\ started s = [task_ok 1; task_err 2 "boom"]
      /\ collected (waiter s) = [{| Success := false; Err := Some "boom"%string |}]
      /\ buf (results (pool s)) = [{| Success := true; Err := None |}]
      /\ held_results s ≡ₚ results_of (started s)
      /\ (forall t, t ∈ started s ->
            t ∈ demo_tasks
            /\ (task_ret t = None ->
                {| Success := true; Err := None |} ∈ held_results s)
            /\ (forall e, task_ret t = Some e ->
                  {| Success := false; Err := Some e |} ∈ held_results s))
      /\ (forall r, r ∈ held_results s ->
            (exists t, t ∈ started s /\ r = task_result (task_ret t))
            /\ (Err r = None <-> Success r = true)).
Proof.
  assert (Hi : is_int 2) by (unfold is_int, int_min, int_max; lia).
  split; [exact Hi|]. split; [reflexivity|].
  eexists. split; [vm_compute; reflexivity|].
  split; [reflexivity|]. split; [reflexivity|]. split; [reflexivity|].
  apply (outcome_fidelity 2 (idle_pool 2 []) demo_tasks _ Hi eq_refl).
  apply (exec_reachable overtaking_schedule). vm_compute. reflexivity.
Defined.

(** X5: in every reachable state the tasks handed to the program are,
    up to order, the entered ones, those whose worker has not entered
    them yet, the queued ones and those not yet submitted.  No task is
    dropped or duplicated; in particular, when the tasks are distinct no
    task body is entered twice. *)
Theorem every_task_in_one_place
  (n : Z) (p : Pool) (tasks : list Task) (s : System) :
  is_int n ->
  New n = Some p ->
  reachable (init p tasks) s ->
  started s ++ spawned (gos s) ++ queue (pool s) ++ inbox s ≡ₚ tasks
  /\ (NoDup tasks -> NoDup (started s)).
Proof.
  intros Hn HN Hr.
  pose proof (InvBooks_reachable _ _ (InvBooks_init n p tasks HN) Hr)
    as [Ht _].
  pose proof (InvFifo_reachable _ _ (Inv_init n p tasks Hn HN)
                (InvFifo_init n p tasks HN) Hr) as [Hq _].
  pose proof (reachable_submitted _ _ Hr) as Hsub. simpl in Hsub.
  assert (Hperm : started s ++ spawned (gos s) ++ queue (pool s) ++ inbox s
                  ≡ₚ tasks).
  { rewrite <- Hsub, Hq, <- Ht, <- !app_assoc. reflexivity. }
  split; [exact Hperm|].
  intros Hnd. rewrite <- Hperm in Hnd. apply NoDup_app in Hnd. tauto.
Qed.

Lemma every_task_in_one_place_witness :
  is_int 1
  /\ New 1 = Some (idle_pool 1 [])
  /\ exists s,
      exec fifo_schedule (init (idle_pool 1 []) demo_tasks) = Some s
      /\ started s = [task_ok 1; task_err 2 "boom"]
      /\ queue (pool s) = [task_ok 3]
      /\ started s ++ spawned (gos s) ++ queue (pool s) ++ inbox s
         ≡ₚ demo_tasks
      /\ (NoDup demo_tasks -> NoDup (started s)).
Proof.
  assert (Hi : is_int 1) by (unfold is_int, int_min, int_max; lia).
  split; [exact Hi|]. split; [reflexivity|].
  eexists. split; [vm_compute; reflexivity|].
  split; [reflexivity|]. split; [reflexivity|].
  apply (every_task_in_one_place 1 (idle_pool 1 []) demo_tasks _ Hi eq_refl).
  apply (exec_reachable fifo_schedule). vm_compute. reflexivity.
Defined.

(** X6: in every reachable state the results collected by [Wait], in
    the buffer of [p.results] and still with the workers are, up to
    order, the results of the tasks whose body has been entered: one
    result per entered task, none made up, none sent twice. *)
Theorem every_result_in_one_place
  (n : Z) (p : Pool) (tasks : list Task) (s : System) :
  New n = Some p ->
  reachable (init p tasks) s ->
  collected (waiter s) ++ buf (results (pool s)) ++ pending_results (gos s)
  ≡ₚ results_of (started s).
Proof.
  intros HN Hr.
  apply (InvBooks_reachable _ _ (InvBooks_init n p tasks HN) Hr).
Qed.

Lemma every_result_in_one_place_witness :
  New 2 = Some (idle_pool 2 [])
  /\ exists s,
      exec overtaking_schedule (init (idle_pool 2 []) demo_tasks) = Some s
      /\ collected (waiter s) = [task_result (Some "boom"%string)]
      /\ buf (results (pool s)) = [task_result None]
      /\ collected (waiter s) ++ buf (results (pool s))
           ++ pending_results (gos s)
         ≡ₚ results_of (started s).
Proof.
  split; [reflexivity|].
  eexists. split; [vm_compute; reflexivity|].
  split; [reflexivity|]. split; [reflexivity|].
  apply (every_result_in_one_place 2 (idle_pool 2 []) demo_tasks _ eq_refl).
  apply (exec_reachable overtaking_schedule). vm_compute. reflexivity.
Defined.

(** ** What has happened when [Wait] returns *)

Lemma idle_goroutines (gs : list Goroutine) :
  tally busy gs = 0%nat ->
  spawned gs = [] /\ pending_results gs = [] /\ tally in_task gs = 0%nat.
Proof.
  unfold tally, spawned, pending_results.
  induction gs as [|g gs IH]; simpl; intros H; [auto|].
  destruct g; simpl in *; try lia; apply IH; lia.
Qed.

(** The runs in which every task is submitted by a complete call of
    [Run] before [Wait] is called. *)
Lemma submitted_before_Wait
  (n : Z) (p : Pool) (tasks : list Task) (acts : list Action) (s : System) :
  is_int n ->
  New n = Some p ->
  exec (run_all (length tasks) ++ AWait :: acts) (init p tasks) = Some s ->
  reachable (init p tasks) s /\ InvDrain s.
Proof.
  intros Hn HN H.
  destruct (exec_app _ _ _ _ H) as (mid & Hpre & Hpost).
  pose proof (exec_reachable _ _ _ Hpre) as Rpre.
  pose proof (exec_reachable _ _ _ Hpost) as Rpost.
  pose proof (Inv_reachable _ _ (Inv_init n p tasks Hn HN) Rpre) as HIm.
  split; [exact (rtc_trans _ _ _ Rpre Rpost)|].
  assert (HDm : InvDrain mid).
  { pose proof (exec_pushes _ _ _ Hpre) as Hlen.
    rewrite pushes_run_all in Hlen. simpl in Hlen.
    assert (Hin : inbox mid = [])
      by (destruct (inbox mid); [reflexivity | simpl in Hlen; lia]).
    simpl in Hpost.
    destruct (waiter mid) eqn:Hwm; try discriminate.
    constructor; [exact Hin|].
    intros [(rs' & E)|E]; [congruence|].
    destruct HIm as [_ _ _ _ _ _ _ Ht _ _].
    destruct (Ht E) as (_ & _ & _ & Hnc & _). contradiction. }
  clear - HIm HDm Rpost.
  induction Rpost as [|x y z Hxy Hyz IH]; [auto|].
  apply IH; [eapply Inv_step | eapply InvDrain_step]; eauto.
Qed.

Lemma returned_books
  (n : Z) (p : Pool) (tasks : list Task) (acts : list Action)
  (s : System) (rs : list TaskResult) :
  is_int n ->
  New n = Some p ->
  exec (run_all (length tasks) ++ AWait :: acts) (init p tasks) = Some s ->
  waiter s = WReturned rs ->
  tally busy (gos s) = 0%nat
  /\ queue (pool s) = []
  /\ inbox s = []
  /\ started s ≡ₚ tasks
  /\ rs ++ buf (results (pool s)) ≡ₚ results_of tasks
  /\ (length (buf (results (pool s))) <= 1)%nat.
Proof.
  intros Hn HN H Hw.
  destruct (submitted_before_Wait n p tasks acts s Hn HN H) as [Hr [Hin Hdq]].
  pose proof (Inv_init n p tasks Hn HN) as HI0.
  pose proof (Inv_reachable _ _ HI0 Hr) as HI.
  pose proof (InvFifo_reachable _ _ HI0 (InvFifo_init n p tasks HN) Hr)
    as [Hq _].
  pose proof (InvCount_reachable _ _ HI0 (InvCount_init n p tasks HN) Hr)
    as [_ Hb].
  pose proof (InvBooks_reachable _ _ (InvBooks_init n p tasks HN) Hr)
    as [Bt Br].
  pose proof (reachable_submitted _ _ Hr) as Hsub. simpl in Hsub.
  assert (E : terminated (pool s) = true).
  { destruct (terminated (pool s)) eqn:E; [reflexivity|].
    destruct HI as [_ _ _ _ _ _ Hnt _ _ _].
    destruct (Hnt E) as (_ & _ & Hnr). exfalso. eapply Hnr; eauto. }
  destruct HI as [_ Hrun _ _ _ _ _ Ht _ _].
  destruct (Ht E) as (R0 & _).
  assert (Hidle : tally busy (gos s) = 0%nat) by lia.
  destruct (idle_goroutines _ Hidle) as (Hsp & Hpr & _).
  specialize (Hdq (or_intror E)).
  rewrite Hin, app_nil_r, Hq, Hdq, app_nil_r in Hsub.
  rewrite Hsp, app_nil_r, Hsub in Bt.
  rewrite Hw, Hpr, app_nil_r in Br. simpl in Br.
  repeat split; auto.
  rewrite Br. unfold results_of. apply Permutation_map. exact Bt.
Qed.

(** X7: when every task is submitted by a complete call of [Run]
    before [Wait] is called, then at the moment [Wait] has returned
    every task has been entered exactly once, every worker has returned
    from its task, sent its result and decremented [running], and the
    queue is empty; the slice returned, together with what is left in
    the buffer of [p.results] (at most one result), holds exactly the
    results of the tasks. *)
Theorem Wait_returns_after_all_tasks_finished
  (n : Z) (p : Pool) (tasks : list Task) (acts : list Action)
  (s : System) (rs : list TaskResult) :
  is_int n ->
  New n = Some p ->
  exec (run_all (length tasks) ++ AWait :: acts) (init p tasks) = Some s ->
  waiter s = WReturned rs ->
  started s ≡ₚ tasks
  /\ tally busy (gos s) = 0%nat
  /\ running (pool s) = 0
  /\ queue (pool s) = []
  /\ rs ++ buf (results (pool s)) ≡ₚ results_of tasks
  /\ (length (buf (results (pool s))) <= 1)%nat.
Proof.
  intros Hn HN H Hw.
  destruct (returned_books n p tasks acts s rs Hn HN H Hw)
    as (Hidle & Hq & _ & Hst & Hres & Hb).
  destruct (submitted_before_Wait n p tasks acts s Hn HN H) as [Hr _].
  pose proof (Inv_reachable _ _ (Inv_init n p tasks Hn HN) Hr)
    as [_ Hrun _ _ _ _ _ _ _ _].
  repeat split; auto. lia.
Qed.

Lemma Wait_returns_after_all_tasks_finished_witness :
  is_int 1
  /\ New 1 = Some (idle_pool 1 [])
  /\ exists s,
      exec (run_all (length [task_err 1 "boom"]) ++ AWait :: full_schedule)
        (init (idle_pool 1 []) [task_err 1 "boom"]) = Some s
      /\ waiter s = WReturned [task_result (Some "boom"%string)]
      /\ started s ≡ₚ [task_err 1 "boom"]
      /\ tally busy (gos s) = 0%nat
      /\ running (pool s) = 0
      /\ queue (pool s) = []
      /\ [task_result (Some "boom"%string)] ++ buf (results (pool s))
         ≡ₚ results_of [task_err 1 "boom"]
      /\ (length (buf (results (pool s))) <= 1)%nat.
Proof.
  assert (Hi : is_int 1) by (unfold is_int, int_min, int_max; lia).
  split; [exact Hi|]. split; [reflexivity|].
  eexists. split; [vm_compute; reflexivity|]. split; [reflexivity|].
  apply (Wait_returns_after_all_tasks_finished 1 (idle_pool 1 [])
           [task_err 1 "boom"] full_schedule _ _ Hi eq_refl);
    [vm_compute; reflexivity | reflexivity].
Defined.

(** ** No queued task is forgotten *)

(** After the locked part of [checkQueue] on a pool that has not
    terminated, the queue is empty or every slot is taken. *)
Lemma checkQueue_locked_saturates
  (p p' : Pool) (ts : list Task) (term : bool) :
  checkQueue_locked p = (p', ts, term) ->
  pool_fields_ok p ->
  running p <= maxCount p ->
  terminated p = false ->
  queue p' = [] \/ running p' = maxCount p'.
Proof.
  intros H Hok Hb Ht.
  pose proof (checkQueue_locked_frame _ _ _ _ H) as (Fq & Fm & _).
  pose proof (checkQueue_locked_count _ _ _ _ H Hok) as (Cr & _).
  destruct (Z_lt_le_dec 0 (maxCount p - running p)) as [Ha|Ha].
  - pose proof (checkQueue_locked_prefix _ _ _ _ H Hok Ht Ha) as Hlen.
    assert (Hq : length (queue p) = (length ts + length (queue p'))%nat)
      by (rewrite Fq, length_app; reflexivity).
    destruct (Nat.le_ge_cases (length (queue p))
                (Z.to_nat (maxCount p - running p))) as [Hle|Hge].
    + left. destruct (queue p'); [reflexivity|]. simpl in Hq. lia.
    + right. lia.
  - right. unfold checkQueue_locked in H. destruct Hok as [Hm Hr].
    rewrite Ht, wrap_id in H by (unfold int_min, int_max in *; lia).
    destruct (maxCount p - running p <=? 0) eqn:Hle;
      [|apply Z.leb_gt in Hle; lia].
    inversion H; subst. lia.
Qed.

Lemma InvWork_wait_check (p : Pool) (rs : list TaskResult) (s : System) :
  Inv s ->
  maxCount p = maxCount (pool s) ->
  running p = running (pool s) ->
  InvWork (wait_check p rs s).
Proof.
  intros HI Em Er.
  assert (Hok : pool_fields_ok p).
  { apply Inv_fields_ok in HI. unfold pool_fields_ok in *.
    rewrite Em, Er. exact HI. }
  assert (Hb : running p <= maxCount p)
    by (destruct HI; lia).
  unfold wait_check.
  destruct (checkQueue_locked p) as [[p' ts] term] eqn:H.
  constructor; simpl. intros rs' _ Et Hq Hr. exfalso.
  pose proof (checkQueue_locked_frame _ _ _ _ H) as (_ & _ & _ & Ft & _).
  rewrite Ft in Et.
  destruct (checkQueue_locked_saturates _ _ _ _ H Hok Hb Et); [auto|lia].
Qed.

Lemma InvWork_go_step (i : nat) (s s' : System) :
  Inv s -> InvWork s -> go_step i s = Some s' -> InvWork s'.
Proof.
  intros HI [Hw] H. unfold go_step in H.
  destruct (gos s !! i) as [g|] eqn:Hi; [|discriminate].
  assert (Hkeep : forall g',
             g <> GAttemptCheck ->
             buf (runCheckChannel (pool s)) <> []
             \/ (exists j, gos s !! j = Some GAttemptCheck) ->
             buf (runCheckChannel (pool s)) <> []
             \/ exists j, <[i := g']> (gos s) !! j = Some GAttemptCheck).
  { intros g' Hg [Hb|(j & Hj)]; [left; exact Hb|]. right. exists j.
    rewrite list_lookup_insert_ne; [exact Hj|]. intros ->. congruence. }
  destruct g.
  - inversion H; subst; clear H. constructor; simpl.
    intros rs E1 E2 E3 E4. apply Hkeep; [discriminate|eauto].
  - inversion H; subst; clear H. constructor; simpl.
    intros rs E1 E2 E3 E4. apply Hkeep; [discriminate|eauto].
  - destruct (chan_send _ _); inversion H; subst; clear H.
    constructor; simpl.
    intros rs E1 E2 E3 E4. apply Hkeep; [discriminate|eauto].
  - inversion H; subst; clear H. constructor; simpl.
    intros rs _ _ _ _. right. exists i.
    apply list_lookup_insert_eq. eapply lookup_lt_Some; eauto.
  - inversion H; subst; clear H. constructor; simpl.
    intros rs _ _ _ _. left. apply try_send_nonempty. apply HI.
  - discriminate.
Qed.

Lemma InvWork_step (s s' : System) :
  Inv s -> InvWork s -> step s s' -> InvWork s'.
Proof.
  intros HI HW [a H]. destruct a; simpl in H.
  - destruct (inbox s) as [|t rest]; [discriminate|].
    inversion H; subst; clear H. constructor; simpl.
    intros rs _ _ _ _. right. exists (length (gos s)).
    apply list_lookup_middle. reflexivity.
  - eapply InvWork_go_step; eauto.
  - destruct (waiter s); try discriminate.
    inversion H; subst; clear H. apply InvWork_wait_check; auto.
  - destruct (waiter s); try discriminate.
    destruct (chan_recv _) as [[v c]|]; [|discriminate].
    inversion H; subst; clear H. apply InvWork_wait_check; auto.
  - destruct (waiter s) eqn:Hw; try discriminate.
    destruct (chan_recv _) as [[v c]|]; [|discriminate].
    inversion H; subst; clear H. destruct HW as [Hp].
    constructor; simpl. intros rs' _. apply (Hp rs). exact Hw.
  - destruct (waiter s) eqn:Hw; try discriminate.
    destruct (chan_recv _) as [[v c]|]; [|discriminate].
    inversion H; subst; clear H. constructor; simpl. discriminate.
  - destruct (waiter s) eqn:Hw; try discriminate.
    inversion H; subst; clear H. constructor; simpl.
    intros rs' _ E. rewrite attemptTermination_sets in E. discriminate.
Qed.

(** X8: whenever the goroutine in [Wait] is at its [select] and the
    pool has not terminated, it will be woken: some goroutine has not
    finished or a re-check signal is in the channel.  And work is not
    left waiting: if a task is queued while a slot is free, a re-check
    signal is in the channel or some goroutine is about to send one. *)
Theorem no_lost_wakeup
  (n : Z) (p : Pool) (tasks : list Task) (s : System) (rs : list TaskResult) :
  is_int n ->
  New n = Some p ->
  reachable (init p tasks) s ->
  waiter s = WSelect rs ->
  terminated (pool s) = false ->
  ((exists i g, gos s !! i = Some g /\ g <> GDone)
   \/ buf (runCheckChannel (pool s)) <> [])
  /\ (queue (pool s) <> [] ->
      running (pool s) < maxCount (pool s) ->
      buf (runCheckChannel (pool s)) <> []
      \/ exists i, gos s !! i = Some GAttemptCheck).
Proof.
  intros Hn HN Hr Hw Ht.
  pose proof (Inv_init n p tasks Hn HN) as HI0.
  assert (HW0 : InvWork (init p tasks))
    by (constructor; simpl; discriminate).
  assert (Hboth : Inv s /\ InvWork s).
  { clear Hw Ht. induction Hr as [|x y z Hxy Hyz IH]; [auto|].
    apply IH; [eapply Inv_step | eapply InvWork_step]; eauto. }
  destruct Hboth as [HI [HW]]. split.
  - destruct HI. eauto.
  - intros Hq Hrun. eapply HW; eauto.
Qed.

Lemma no_lost_wakeup_witness :
  is_int 1
  /\ New 1 = Some (idle_pool 1 [])
  /\ exists s,
      exec fifo_schedule (init (idle_pool 1 []) demo_tasks) = Some s
      /\ waiter s = WSelect []
      /\ ((exists i g, gos s !! i = Some g /\ g <> GDone)
          \/ buf (runCheckChannel (pool s)) <> [])
      /\ (queue (pool s) <> [] ->
          running (pool s) < maxCount (pool s) ->
          buf (runCheckChannel (pool s)) <> []
          \/ exists i, gos s !! i = Some GAttemptCheck).
Proof.
  assert (Hi : is_int 1) by (unfold is_int, int_min, int_max; lia).
  split; [exact Hi|]. split; [reflexivity|].
  eexists. split; [vm_compute; reflexivity|]. split; [reflexivity|].
  apply (no_lost_wakeup 1 (idle_pool 1 []) demo_tasks _ [] Hi eq_refl);
    [apply (exec_reachable fifo_schedule); vm_compute; reflexivity
    |reflexivity | reflexivity].
Defined.

(** ** Counting failures (src/main.go) *)

Lemma count_failed_from (rs : list TaskResult) :
  forall acc,
    0 <= acc ->
    acc + Z.of_nat (length rs) <= int_max ->
    fold_left (fun failed r =>
                 if negb (Success r) then wrap (failed + 1) else failed)
      rs acc
    = acc + Z.of_nat (nfailed rs).
Proof.
  unfold nfailed.
  induction rs as [|r rs IH]; intros acc H0 Hmax; simpl.
  - lia.
  - simpl in Hmax. destruct (Success r); simpl.
    + rewrite IH by lia. lia.
    + rewrite wrap_id by (unfold int_min, int_max in *; lia).
      rewrite IH by lia. lia.
Qed.

Lemma count_failed_nfailed (rs : list TaskResult) :
  Z.of_nat (length rs) <= int_max ->
  count_failed rs = Z.of_nat (nfailed rs).
Proof.
  intros H. unfold count_failed. rewrite count_failed_from; lia.
Qed.

Lemma nfailed_le_length (rs : list TaskResult) :
  (nfailed rs <= length rs)%nat.
Proof.
  unfold nfailed. induction rs as [|r rs IH]; simpl; [lia|].
  destruct (Success r); lia.
Qed.

Lemma results_of_length (ts : list Task) :
  length (results_of ts) = length ts.
Proof. unfold results_of. apply length_map. Qed.

(** X9: when every task is submitted before [Wait] is called, the
    failures counted by the loop of [main] over the slice [Wait]
    returned, plus those in the result that may be left in the channel,
    are as many as the tasks that return an error.  So the count never
    exceeds the number of failing tasks, and is zero when no task
    fails. *)
Theorem failures_counted
  (n : Z) (p : Pool) (tasks : list Task) (acts : list Action)
  (s : System) (rs : list TaskResult) :
  is_int n ->
  New n = Some p ->
  Z.of_nat (length tasks) <= int_max ->
  exec (run_all (length tasks) ++ AWait :: acts) (init p tasks) = Some s ->
  waiter s = WReturned rs ->
  count_failed rs + count_failed (buf (results (pool s)))
  = Z.of_nat (failing tasks)
  /\ 0 <= count_failed rs <= Z.of_nat (failing tasks)
  /\ (failing tasks = 0%nat -> count_failed rs = 0).
Proof.
  intros Hn HN Hlen H Hw.
  destruct (returned_books n p tasks acts s rs Hn HN H Hw)
    as (_ & _ & _ & _ & Hres & _).
  pose proof (Permutation_length Hres) as Hl.
  rewrite length_app, results_of_length in Hl.
  assert (Hsum : (nfailed rs + nfailed (buf (results (pool s))))%nat
                 = failing tasks).
  { unfold failing, nfailed. rewrite <- Hres, sum_list_with_app.
    reflexivity. }
  rewrite !count_failed_nfailed by lia.
  repeat split; lia.
Qed.

Lemma failures_counted_witness :
  is_int 1
  /\ New 1 = Some (idle_pool 1 [])
  /\ exists s,
      exec (run_all (length [task_err 1 "boom"]) ++ AWait :: full_schedule)
        (init (idle_pool 1 []) [task_err 1 "boom"]) = Some s
      /\ waiter s = WReturned [task_result (Some "boom"%string)]
      /\ count_failed [task_result (Some "boom"%string)] = 1
      /\ count_failed [task_result (Some "boom"%string)]
           + count_failed (buf (results (pool s)))
         = Z.of_nat (failing [task_err 1 "boom"]).
Proof.
  assert (Hi : is_int 1) by (unfold is_int, int_min, int_max; lia).
  split; [exact Hi|]. split; [reflexivity|].
  eexists. split; [vm_compute; reflexivity|]. split; [reflexivity|].
  split; [reflexivity|].
  apply (failures_counted 1 (idle_pool 1 []) [task_err 1 "boom"]
           full_schedule _ _ Hi eq_refl);
    [unfold int_max; simpl; lia | vm_compute; reflexivity | reflexivity].
Defined.

(** ** What [main] prints *)

Lemma count_failed_all_ok (rs : list TaskResult) :
  (forall r, r ∈ rs -> Success r = true) -> count_failed rs = 0.
Proof.
  unfold count_failed. generalize 0.
  induction rs as [|r rs IH]; intros acc Hall; simpl; [reflexivity|].
  rewrite (Hall r) by (apply elem_of_cons; left; reflexivity). simpl.
  apply IH. intros r' Hr'. apply Hall. apply elem_of_cons. right. exact Hr'.
Qed.

Lemma main_tasks_ok (k : nat) (r : TaskResult) :
  r ∈ results_of (main_tasks k) -> Success r = true.
Proof.
  unfold results_of, main_tasks. intros Hr.
  apply list_elem_of_In, in_map_iff in Hr. destruct Hr as (t & <- & Ht).
  apply in_map_iff in Ht. destruct Ht as (i & <- & _). reflexivity.
Qed.

Lemma main_tasks_length (k : nat) : length (main_tasks k) = k.
Proof. unfold main_tasks. rewrite length_map, length_seq. reflexivity. Qed.

(** What the example program prints, for any pool size and any number
    of tasks that fits its [uint64] counter. *)
Lemma main_with_outputs
  (limit : Z) (k : nat) (acts : list Action) (counter results failed : Z) :
  is_int limit ->
  Z.of_nat k < 2 ^ 64 ->
  main_with limit k acts = Some (counter, results, failed) ->
  counter = Z.of_nat k
  /\ failed = 0
  /\ (results = Z.of_nat k \/ results = Z.of_nat k - 1).
Proof.
  intros Hl Hk H. unfold main_with in H.
  destruct (New limit) as [p|] eqn:HN; [|discriminate].
  destruct (exec _ _) as [s|] eqn:He; [|discriminate].
  destruct (waiter s) as [|?|?|rs] eqn:Hw; try discriminate.
  inversion H; subst; clear H.
  rewrite <- (main_tasks_length k) in He at 1.
  destruct (returned_books limit p (main_tasks k) acts s rs Hl HN He Hw)
    as (Hidle & _ & _ & Hst & Hres & Hb).
  destruct (idle_goroutines _ Hidle) as (_ & _ & Hit).
  pose proof (Permutation_length Hst) as Hls.
  pose proof (Permutation_length Hres) as Hlr.
  rewrite length_app, results_of_length in Hlr.
  rewrite main_tasks_length in Hls, Hlr.
  split; [|split].
  - unfold bodies_returned. rewrite Hit, Hls, Nat.sub_0_r.
    apply Z.mod_small. lia.
  - apply count_failed_all_ok. intros r Hr.
    apply (main_tasks_ok k). rewrite <- Hres.
    apply elem_of_app. left. exact Hr.
  - lia.
Qed.

(** X10: whatever the schedule, when the example program gets to its
    two [Printf] calls it prints [counter = k]: every task body has
    run; [failed = 0]; and [results = k] or [results = k - 1], the
    latter when the last result was left in the channel. *)
Theorem main_with_prints
  (limit : Z) (k : nat) (acts : list Action) (counter results failed : Z) :
  is_int limit ->
  Z.of_nat k < 2 ^ 64 ->
  main_with limit k acts = Some (counter, results, failed) ->
  counter = Z.of_nat k
  /\ failed = 0
  /\ (results = Z.of_nat k \/ results = Z.of_nat k - 1).
Proof. apply main_with_outputs. Qed.

Lemma main_with_prints_witness :
  is_int 1
  /\ Z.of_nat 1 < 2 ^ 64
  /\ main_with 1 1 full_schedule = Some (1, 1, 0)
  /\ 1 = Z.of_nat 1
  /\ 0 = 0
  /\ (1 = Z.of_nat 1 \/ 1 = Z.of_nat 1 - 1).
Proof.
  assert (Hi : is_int 1) by (unfold is_int, int_min, int_max; lia).
  assert (Hk : Z.of_nat 1 < 2 ^ 64) by reflexivity.
  assert (Hm : main_with 1 1 full_schedule = Some (1, 1, 0))
    by (vm_compute; reflexivity).
  split; [exact Hi|]. split; [exact Hk|]. split; [exact Hm|].
  exact (main_with_prints 1 1 full_schedule 1 1 0 Hi Hk Hm).
Defined.

(** The program as written, with ten workers and ten thousand tasks:
    it prints [counter=10000], [failed=0], and [results=10000] or
    [results=9999]. *)
Lemma main_prints (acts : list Action) (counter results failed : Z) :
  main acts = Some (counter, results, failed) ->
  counter = 10000 /\ failed = 0 /\ (results = 10000 \/ results = 9999).
Proof.
  unfold main. intros H.
  assert (Hi : is_int 10) by (unfold is_int, int_min, int_max; lia).
  assert (Hk : Z.of_nat (Z.to_nat 10000) < 2 ^ 64) by (rewrite Z2Nat.id; lia).
  pose proof (main_with_outputs 10 (Z.to_nat 10000) acts _ _ _ Hi Hk H)
    as (Hc & Hf & Hr).
  rewrite Z2Nat.id in Hc, Hr by lia. repeat split; auto.
Qed.
